(** * doppler-psv-pipeline: the per-image core of [pig_dataprocess_auto.py]

    A shallow embedding of lines 56-110 of the script (thresholding, the
    brightness profile, the region boundaries, the top-most bright pixel of
    every region and the linear calibration) together with the image loop
    around them, and the properties of the specification that concern them.

    Conventions.
    - Pixel rows and columns, peaks and boundaries are integers ([Z]);
      NumPy's [int64] arithmetic on peak indices is written with its
      wrap-around ([wrap64]).
    - The grey image is a NumPy array of shape [(H, W)]: its rows as a list
      of lists, with the width kept beside them (an array with no row still
      has a width).
    - Python exceptions are an error monad [py].
    - Calibration values are [float64] in the script.  Line 110 is modelled
      twice: [calibrate_f64] is the expression as NumPy evaluates it, every
      operation rounded to binary64 (the Standard Library's [SpecFloat]);
      [calibrate] is the same expression in exact rational arithmetic
      ([Q]), in which the order of the values and the degenerate scale are
      stated.  The two differ by rounding, as the counterexample to the
      row-0 rule shows.
    - The mean of a column is a rational, or NaN for a column with no row
      ([npfloat]).
    - Lines 33-55 (resizing, the operator's crop, the crop written to disk,
      upscaling), lines 107-108 (the operator's two numbers) and lines
      112-128 (drawing) are not part of [process_image]: the grey array and
      the two numbers come with the [job].  The crop written at line 49 is
      put in front of the body by [process_file].
    - [scipy.signal.find_peaks] together with the adaptive thresholds fed to
      it (lines 61-69) is an external routine: the parameter [find_peaks] of
      the loop body, and every statement holds for any such function. *)

From Stdlib Require Import String ZArith QArith List Bool Lia.
From Stdlib Require Import SpecFloat.
Import ListNotations.
Open Scope Z_scope.

(** ** Python exceptions *)

Module Py.

Inductive exn : Type :=
| IndexError
| ValueError
| Cv2Error.

Inductive py (A : Type) : Type :=
| Ret (a : A)
| Raise (e : exn).

Arguments Ret {A} a.
Arguments Raise {A} e.

Definition bind {A B : Type} (m : py A) (k : A -> py B) : py B :=
  match m with
  | Ret a => k a
  | Raise e => Raise e
  end.

(** [for x in xs: s = body x s], stopping at the first exception. *)
Fixpoint for_each {A S : Type} (xs : list A) (body : A -> S -> py S) (s : S)
  : py S :=
  match xs with
  | [] => Ret s
  | x :: xs' => bind (body x s) (for_each xs' body)
  end.

End Py.
Import Py.

Notation "x <- m ;; k" := (bind m (fun x => k))
  (at level 61, m at next level, right associativity).

(** ** Integers and sequences as Python and NumPy have them *)

(** [range(n)]: empty when [n <= 0]. *)
Definition range (n : Z) : list Z := map Z.of_nat (seq 0 (Z.to_nat n)).

Definition len {A : Type} (l : list A) : Z := Z.of_nat (length l).

(** Two's complement [int64], the dtype of the indices [find_peaks] returns. *)
Definition wrap64 (z : Z) : Z := (z + 2 ^ 63) mod 2 ^ 64 - 2 ^ 63.
Definition add64 (a b : Z) : Z := wrap64 (a + b).
Definition sub64 (a b : Z) : Z := wrap64 (a - b).
(** [a // b]: floor division, which is [Z.div] for the positive divisor used. *)
Definition floordiv64 (a b : Z) : Z := wrap64 (a / b).

(** [a[i]] on a one-dimensional array: a negative index counts from the end,
    an index out of range raises [IndexError]. *)
Definition getitem (a : list Z) (i : Z) : py Z :=
  let k := if i <? 0 then i + len a else i in
  if (0 <=? k) && (k <? len a)
  then match nth_error a (Z.to_nat k) with
       | Some v => Ret v
       | None => Raise IndexError
       end
  else Raise IndexError.

Notation "a .[ i ]" := (getitem a i) (at level 1, format "a .[ i ]").

(** [a[start:stop]] on one axis of length [length row], step 1. *)
Definition slice_index (i n : Z) : Z :=
  if i <? 0 then Z.max 0 (i + n) else Z.min i n.

Definition slice {A : Type} (start stop : Z) (row : list A) : list A :=
  let n := len row in
  let lo := slice_index start n in
  let hi := slice_index stop n in
  firstn (Z.to_nat (hi - lo)) (skipn (Z.to_nat lo) row).

(** ** Region Segmenter (lines 75-83) *)

Definition region_boundaries (peaks : list Z) (img_width : Z) : py (list Z) :=
  p0 <- peaks.[0] ;;
  p1 <- peaks.[1] ;;
  let left_bound := Z.max 0 (sub64 p0 (floordiv64 (sub64 p1 p0) 2)) in
  let region_boundaries := [left_bound] in
  region_boundaries <-
    for_each (range (len peaks - 1))
      (fun i region_boundaries =>
         pi <- peaks.[i] ;;
         pj <- peaks.[i + 1] ;;
         let midpoint := floordiv64 (add64 pi pj) 2 in
         Ret (region_boundaries ++ [midpoint]))
      region_boundaries ;;
  pl <- peaks.[-1] ;;
  pm <- peaks.[-2] ;;
  let right_bound :=
    Z.min img_width (add64 pl (floordiv64 (sub64 pl pm) 2)) in
  Ret (region_boundaries ++ [right_bound]).

(** The regions the later loops read off the boundaries: region [i] is
    [(region_boundaries[i], region_boundaries[i + 1])], a half-open range of
    columns. *)
Definition regions_of (region_boundaries : list Z) : list (Z * Z) :=
  combine region_boundaries (tl region_boundaries).

Definition in_region (c : Z) (r : Z * Z) : bool :=
  (fst r <=? c) && (c <? snd r).

(** How many regions hold column [c]. *)
Definition covering (c : Z) (regions : list (Z * Z)) : nat :=
  length (filter (in_region c) regions).

(** Peaks as the Peak Detector hands them over: strictly increasing column
    indices of the profile. *)
Fixpoint strictly_increasing (l : list Z) : bool :=
  match l with
  | a :: ((b :: _) as t) => (a <? b) && strictly_increasing t
  | _ => true
  end.

Definition peaks_in (img_width : Z) (peaks : list Z) : bool :=
  forallb (fun p => (0 <=? p) && (p <? img_width)) peaks.

Fixpoint non_decreasing (l : list Z) : bool :=
  match l with
  | a :: ((b :: _) as t) => (a <=? b) && non_decreasing t
  | _ => true
  end.

(** ** The grey image (lines 56-57) *)

(** A two-dimensional [uint8] array: [rows] holds the [H] rows, each of
    [shape1] pixels. *)
Record ndarray2 : Type := {
  shape1 : Z;
  rows : list (list Z)
}.

Definition shape0 (a : ndarray2) : Z := len (rows a).

(** What every NumPy array satisfies: a width that an [int64] index holds,
    and rows of that width. *)
Definition well_shaped (a : ndarray2) : bool :=
  (0 <=? shape1 a) && (shape1 a <? 2 ^ 63) && (shape0 a <? 2 ^ 63)
  && forallb (fun row => len row =? shape1 a) (rows a).

(** [a[r, c]]; 0 outside the array, where the code never reads. *)
Definition pixel (a : ndarray2) (r c : Z) : Z :=
  if (0 <=? r) && (0 <=? c)
  then nth (Z.to_nat c) (nth (Z.to_nat r) (rows a) []) 0
  else 0.

Definition BRIGHTNESS_THRESHOLD : Z := 5.

(** [gray[gray < thr] = 0] *)
Definition zero_below (thr : Z) (gray : ndarray2) : ndarray2 :=
  {| shape1 := shape1 gray;
     rows := map (map (fun v => if v <? thr then 0 else v)) (rows gray) |}.

(** [gray[:, x0:x1]] *)
Definition slice_columns (gray : ndarray2) (x0 x1 : Z) : ndarray2 :=
  {| shape1 :=
       Z.max 0 (slice_index x1 (shape1 gray) - slice_index x0 (shape1 gray));
     rows := map (slice x0 x1) (rows gray) |}.

(** [a[:, c]] for a column [c] of the array. *)
Definition column (a : ndarray2) (c : Z) : list Z :=
  map (fun row => nth (Z.to_nat c) row 0) (rows a).

(** ** Profile Builder (line 60) *)

(** A [float64] as far as the profile needs it: a number, or the NaN that
    NumPy returns (with a warning, not an exception) for the mean of no
    value. *)
Inductive npfloat : Type :=
| Finite (q : Q)
| NaN.

Definition np_sum (l : list Z) : Z := fold_left Z.add l 0.

Definition np_mean (l : list Z) : npfloat :=
  match l with
  | [] => NaN
  | _ :: _ => Finite (inject_Z (np_sum l) / inject_Z (len l))
  end.

(** [gray.mean(axis=0)]: one mean per column. *)
Definition signal_profile (gray : ndarray2) : list npfloat :=
  map (fun c => np_mean (column gray c)) (range (shape1 gray)).

(** ** Landmark Locator (lines 85-104) *)

Definition intensity_threshold : Z := 0.

(** [np.where(col > thr)[0]]: the indices, ascending, of the entries above
    the threshold. *)
Definition np_where_gt (col : list Z) (thr : Z) : list Z :=
  filter (fun y => thr <? nth (Z.to_nat y) col 0) (range (len col)).

(** [np.min]: [ValueError] on an empty array. *)
Definition np_min (l : list Z) : py Z :=
  match l with
  | [] => Raise ValueError
  | y :: t => Ret (fold_left Z.min t y)
  end.

(** The body of the loop over the columns of a region (lines 95-101); the
    state is [(min_y, min_x_local)]. *)
Definition scan_column (subregion : ndarray2) (x_local : Z) (best : Z * Z)
  : py (Z * Z) :=
  let '(min_y, min_x_local) := best in
  let col := column subregion x_local in
  let valid_y := np_where_gt col intensity_threshold in
  if len valid_y >? 0
  then y <- np_min valid_y ;;
       if y <? min_y then Ret (y, x_local) else Ret (min_y, min_x_local)
  else Ret (min_y, min_x_local).

(** Lines 91-104 for one region [x0, x1): the landmark [(x_global, min_y)],
    or nothing. *)
Definition landmark_locator (gray : ndarray2) (x0 x1 : Z)
  : py (option (Z * Z)) :=
  let img_height := shape0 gray in
  let subregion := slice_columns gray x0 x1 in
  best <- for_each (range (shape1 subregion)) (scan_column subregion)
            (img_height, -1) ;;
  let '(min_y, min_x_local) := best in
  if (min_x_local >=? 0) && (min_y <? img_height)
  then let x_global := add64 x0 min_x_local in
       Ret (Some (x_global, min_y))
  else Ret None.

(** The loop over the regions (lines 86-104). *)
Definition highest_peaks (gray : ndarray2) (region_boundaries : list Z)
  : py (list (Z * Z)) :=
  for_each (range (len region_boundaries - 1))
    (fun i highest_peaks =>
       x0 <- region_boundaries.[i] ;;
       x1 <- region_boundaries.[i + 1] ;;
       found <- landmark_locator gray x0 x1 ;;
       match found with
       | Some pt => Ret (highest_peaks ++ [pt])
       | None => Ret highest_peaks
       end)
    [].

(** ** Calibration Mapper (lines 109-110) *)

Open Scope Q_scope.

Definition calibrate (img_height : Z) (y_bottom y_top : Q) (r : Z) : Q :=
  (1 - inject_Z r / inject_Z img_height) * (y_top - y_bottom) + y_bottom.

Definition converted_y (raw_y_coords : list Z) (img_height : Z)
    (y_bottom y_top : Q) : list Q :=
  map (calibrate img_height y_bottom y_top) raw_y_coords.

Close Scope Q_scope.

(** *** Line 110 as NumPy evaluates it

    [np.array(raw_y_coords)] is an [int64] array; dividing it by the Python
    integer [img_height] converts both to [float64], and every operation
    after that is a [float64] operation, rounded to the nearest value, ties
    to even.  [spec_float] is the Standard Library's specification of
    IEEE 754 arithmetic, here at precision 53 and maximal exponent 1024. *)

Definition f64 : Type := spec_float.
Definition f64_add : f64 -> f64 -> f64 := SFadd 53 1024.
Definition f64_sub : f64 -> f64 -> f64 := SFsub 53 1024.
Definition f64_mul : f64 -> f64 -> f64 := SFmul 53 1024.
Definition f64_div : f64 -> f64 -> f64 := SFdiv 53 1024.
(** An integer as [float64]. *)
Definition f64_of_int (z : Z) : f64 := binary_normalize 53 1024 z 0 false.
(** Python's [==] on floats. *)
Definition f64_eqb : f64 -> f64 -> bool := SFeqb.
Definition f64_is_finite (x : f64) : bool :=
  match x with
  | S754_zero _ | S754_finite _ _ _ => true
  | _ => false
  end.

(** The mantissa and the exponent are those of a binary64 number, which
    holds of every Python float. *)
Definition f64_valid : f64 -> bool := valid_binary 53 1024.

(** The rational a finite value stands for. *)
Definition f64_to_Q (x : f64) : Q :=
  match x with
  | S754_finite s m e => (inject_Z (cond_Zopp s (Z.pos m)) * Qpower 2 e)%Q
  | _ => 0%Q
  end.

Definition calibrate_f64 (img_height : Z) (y_bottom y_top : f64) (r : Z) : f64 :=
  f64_add
    (f64_mul
       (f64_sub (f64_of_int 1) (f64_div (f64_of_int r) (f64_of_int img_height)))
       (f64_sub y_top y_bottom))
    y_bottom.

Definition converted_y_f64 (raw_y_coords : list Z) (img_height : Z)
    (y_bottom y_top : f64) : list f64 :=
  map (calibrate_f64 img_height y_bottom y_top) raw_y_coords.

Definition f64_one : f64 := S754_finite false 4503599627370496 (-52).

(** [float("-0.1")] and [float("0.2")]: the binary64 values nearest to
    -1/10 and 2/10. *)
Definition minus_one_tenth : f64 := S754_finite true 7205759403792794 (-56).
Definition two_tenths : f64 := S754_finite false 7205759403792794 (-55).

(** ** One image, and the loop over the images (lines 26-147) *)

(** What the steps outside the core hand to it for one file: the grey array
    of line 55 ([None] when [cv2.imread] could not load the file) and the two
    numbers the operator types at lines 107-108. *)
Record job : Type := {
  base_name : string;
  image : option ndarray2;
  y_bottom : Q;
  y_top : Q
}.

(** The data frame of lines 132-136 (the two statistics rows, which need a
    square root, are left out). *)
Record table : Type := {
  heartbeat : list Z;
  y_position : list Z;
  converted : list Q
}.

(** What is saved for one image: the boundaries and landmarks drawn on the
    labelled picture, and the table. *)
Record artefacts : Type := {
  boundaries : list Z;
  landmarks : list (Z * Z);
  csv : table
}.

(** The console and the output folder. *)
Record world : Type := {
  stdout : list string;
  saved : list (string * artefacts)
}.

Definition print (msg : string) (w : world) : world :=
  {| stdout := stdout w ++ [msg]; saved := saved w |}.

Definition save (name : string) (a : artefacts) (w : world) : world :=
  {| stdout := stdout w; saved := saved w ++ [(name, a)] |}.

Definition too_few_peaks : string :=
  "Too few peaks detected. Skipping this image.".

(** The body of the loop over the image files, from the grey array on.
    [continue] is an early [Ret]; an exception leaves the loop, and the
    script.  The messages are given without the folder and the pictograph
    in front; what is recorded as the table is [df_final], the rows of the
    landmarks (line 143 writes two statistics rows below them). *)
Definition process_image (find_peaks : list npfloat -> list Z) (j : job)
    (w : world) : py world :=
  let w := print ("Processing: " ++ base_name j) w in
  match image j with
  | None => Ret (print ("Could not load image: " ++ base_name j) w)
  | Some gray =>
    let gray := zero_below BRIGHTNESS_THRESHOLD gray in
    let img_height := shape0 gray in
    let img_width := shape1 gray in
    let signal_profile := signal_profile gray in
    let peaks := find_peaks signal_profile in
    if len peaks <? 2
    then Ret (print too_few_peaks w)
    else
      region_boundaries <- region_boundaries peaks img_width ;;
      highest_peaks <- highest_peaks gray region_boundaries ;;
      let raw_y_coords := map snd highest_peaks in
      let converted_y :=
        converted_y raw_y_coords img_height (y_bottom j) (y_top j) in
      let df_final :=
        {| heartbeat := map (fun i => i + 1) (range (len highest_peaks));
           y_position := raw_y_coords;
           converted := converted_y |} in
      let w := save (base_name j)
                 {| boundaries := region_boundaries;
                    landmarks := highest_peaks;
                    csv := df_final |} w in
      Ret (print ("Done: Saved labeled image and CSV for " ++ base_name j) w)
  end.


(** ** The crop in front of the loop body (lines 41-55) *)

(** An image file as the loop meets it: the height and the width of the
    rectangle the operator selects at line 41 ([h] and [w] of line 43, both 0
    when nothing is selected), beside what the [job] holds. *)
Record image_file : Type := {
  crop_height : Z;
  crop_width : Z;
  job_of : job
}.

(** [cv2.imwrite] on an array of the given shape: OpenCV refuses an array
    with no element (its assertion [!_img.empty()] fails), which Python
    sees as [cv2.error]. *)
Definition cv2_imwrite (shape : Z * Z) : py unit :=
  if (fst shape =? 0) || (snd shape =? 0) then Raise Cv2Error else Ret tt.

(** Lines 54-55: the grey array is the crop, twice as high and twice as
    wide. *)
Definition gray_of_crop (f : image_file) (gray : ndarray2) : Prop :=
  shape0 gray = 2 * crop_height f /\ shape1 gray = 2 * crop_width f.

(** The loop body with line 49 in it: a file that was loaded has its crop
    written before the grey array is made. *)
Definition process_file (find_peaks : list npfloat -> list Z) (f : image_file)
    (w : world) : py world :=
  match image (job_of f) with
  | None => process_image find_peaks (job_of f) w
  | Some _ =>
    written <- cv2_imwrite (crop_height f, crop_width f) ;;
    process_image find_peaks (job_of f) w
  end.

Definition script (find_peaks : list npfloat -> list Z)
    (image_files : list image_file) (w : world) : py world :=
  w <- for_each image_files (process_file find_peaks) w ;;
  Ret (print "All images processed." w).

(** ** The specification's words, as definitions *)

(** [peak[i]] in the specification's formulas, for an index in range. *)
Definition at_index (l : list Z) (i : Z) : Z := nth (Z.to_nat i) l 0.

(** Section 4.3: the left bound, the midpoints of consecutive peaks, the
    right bound, in unbounded integer arithmetic. *)
Definition spec_left_bound (peak : list Z) : Z :=
  Z.max 0 (at_index peak 0 - (at_index peak 1 - at_index peak 0) / 2).

Definition spec_midpoint (peak : list Z) (i : Z) : Z :=
  (at_index peak i + at_index peak (i + 1)) / 2.

Definition spec_right_bound (peak : list Z) (W : Z) : Z :=
  let n := len peak in
  Z.min W (at_index peak (n - 1)
           + (at_index peak (n - 1) - at_index peak (n - 2)) / 2).

Definition spec_boundaries (peak : list Z) (W : Z) : list Z :=
  [spec_left_bound peak]
  ++ map (spec_midpoint peak) (range (len peak - 1))
  ++ [spec_right_bound peak W].

(** Consecutive regions share their boundary. *)
Fixpoint contiguous (regions : list (Z * Z)) : bool :=
  match regions with
  | r :: ((r' :: _) as t) => (snd r =? fst r') && contiguous t
  | _ => true
  end.

(** An ordered sequence of half-open regions covers exactly [[lo, hi)]: it
    starts at [lo], ends at [hi], is contiguous, and every column of
    [[lo, hi)] lies in one region and only one, every other column in none. *)
Definition tiles (lo hi : Z) (regions : list (Z * Z)) : Prop :=
  fst (hd (lo, lo) regions) = lo
  /\ snd (last regions (hi, hi)) = hi
  /\ contiguous regions = true
  /\ forall c, covering c regions
               = if (lo <=? c) && (c <? hi) then 1%nat else 0%nat.

(** Section 4.4: a pixel counts when its intensity strictly exceeds the
    threshold. *)
Definition bright (gray : ndarray2) (r c : Z) : Prop :=
  intensity_threshold < pixel gray r c.

(** [(r, c)] is a pixel of the image that lies in the region [[x0, x1)]. *)
Definition pixel_of_region (gray : ndarray2) (x0 x1 r c : Z) : Prop :=
  0 <= r < shape0 gray /\ x0 <= c < x1.

(** A region of the image: a column range inside [[0, W]]. *)
Definition region_of_image (gray : ndarray2) (x0 x1 : Z) : bool :=
  (0 <=? x0) && (x0 <=? x1) && (x1 <=? shape1 gray).

(** No pixel of the region strictly exceeds the threshold. *)
Definition region_is_dark (gray : ndarray2) (x0 x1 : Z) : bool :=
  forallb
    (fun r =>
       forallb (fun k => pixel gray r (x0 + k) <=? intensity_threshold)
         (range (x1 - x0)))
    (range (shape0 gray)).

(** What the scan of a region knows after the local columns [0 .. k-1]:
    either nothing bright was met and the state is still the initial one, or
    the state is the bright pixel that comes first by row, then by column. *)
Definition scanned (sub : ndarray2) (k : Z) (best : Z * Z) : Prop :=
  let '(min_y, min_x_local) := best in
  (min_x_local = -1 /\ min_y = shape0 sub
   /\ forall j r, 0 <= j < k -> 0 <= r < shape0 sub -> ~ bright sub r j)
  \/ (0 <= min_x_local < k /\ 0 <= min_y < shape0 sub
      /\ bright sub min_y min_x_local
      /\ forall j r, 0 <= j < k -> 0 <= r < shape0 sub -> bright sub r j ->
           min_y < r \/ (min_y = r /\ min_x_local <= j)).

(** Section 4.4: [(c, r)] is the bright pixel of the region with the
    smallest row index and, among those of that row, the leftmost column. *)
Definition topmost_leftmost (gray : ndarray2) (x0 x1 c r : Z) : Prop :=
  pixel_of_region gray x0 x1 r c
  /\ bright gray r c
  /\ forall r' c', pixel_of_region gray x0 x1 r' c' -> bright gray r' c' ->
       r < r' \/ (r = r' /\ c <= c').

(** What the loop over the regions appends for one region. *)
Definition found_in (gray : ndarray2) (region : Z * Z) : list (Z * Z) :=
  match landmark_locator gray (fst region) (snd region) with
  | Ret (Some pt) => [pt]
  | _ => []
  end.

(** What one image adds to the output folder, read off a run of the loop
    body on an empty folder. *)
Definition artefacts_of (find_peaks : list npfloat -> list Z) (j : job)
  : list (string * artefacts) :=
  match process_image find_peaks j {| stdout := []; saved := [] |} with
  | Ret w => saved w
  | Raise _ => []
  end.

(** ** Predicates of the further properties *)

(** Grey values as [cv2.cvtColor] produces them. *)
Definition is_uint8 (gray : ndarray2) : bool :=
  forallb (forallb (fun v => (0 <=? v) && (v <=? 255))) (rows gray).

(** Boundaries that are columns of an image of width [W], its right edge
    included. *)
Definition boundaries_within (W : Z) (region_boundaries : list Z) : bool :=
  forallb (fun x => (0 <=? x) && (x <=? W)) region_boundaries.

(** The regions that hold a pixel above the intensity threshold. *)
Definition lit_regions (gray : ndarray2) (region_boundaries : list Z)
  : list (Z * Z) :=
  filter (fun region => negb (region_is_dark gray (fst region) (snd region)))
    (regions_of region_boundaries).

(** The gap that decides where the right boundary of the region of peak [i]
    falls: to the next peak, and for the last peak to the one before. *)
Definition deciding_gap (peaks : list Z) (i : Z) : Z :=
  if i + 1 <? len peaks
  then at_index peaks (i + 1) - at_index peaks i
  else at_index peaks i - at_index peaks (i - 1).

(** ** Lemmas on the Python layer *)

Lemma bind_ret {A B : Type} (a : A) (k : A -> py B) : bind (Ret a) k = k a.
Proof. reflexivity. Qed.

Lemma for_each_app {A S : Type} (xs ys : list A) (body : A -> S -> py S) s :
  for_each (xs ++ ys) body s = bind (for_each xs body s) (for_each ys body).
Proof.
  revert s; induction xs as [|x xs IH]; intros s; simpl; [reflexivity|].
  destruct (body x s) as [s'|e]; simpl; [apply IH|reflexivity].
Qed.

Lemma for_each_ext {A S : Type} (xs : list A) (f g : A -> S -> py S) s :
  (forall x s', In x xs -> f x s' = g x s') ->
  for_each xs f s = for_each xs g s.
Proof.
  revert s; induction xs as [|x xs IH]; intros s H; simpl; [reflexivity|].
  rewrite (H x s (or_introl eq_refl)).
  destruct (g x s) as [s'|e]; simpl; [|reflexivity].
  apply IH; intros y s'' Hy; apply H; now right.
Qed.

Lemma for_each_map {A B S : Type} (h : A -> B) (xs : list A)
    (f : B -> S -> py S) s :
  for_each (map h xs) f s = for_each xs (fun x => f (h x)) s.
Proof.
  revert s; induction xs as [|x xs IH]; intros s; simpl; [reflexivity|].
  destruct (f (h x) s) as [s'|e]; simpl; [apply IH|reflexivity].
Qed.

Lemma len_nonneg {A : Type} (l : list A) : 0 <= len l.
Proof. unfold len; lia. Qed.

Lemma len_app {A : Type} (l l' : list A) : len (l ++ l') = len l + len l'.
Proof. unfold len; rewrite length_app; lia. Qed.

Lemma len_cons {A : Type} (a : A) (l : list A) : len (a :: l) = len l + 1.
Proof. unfold len; simpl length; lia. Qed.

Lemma len_map {A B : Type} (f : A -> B) (l : list A) : len (map f l) = len l.
Proof. unfold len; now rewrite length_map. Qed.

Lemma range_succ n : 0 <= n -> range (n + 1) = range n ++ [n].
Proof.
  intros H; unfold range.
  replace (Z.to_nat (n + 1)) with (S (Z.to_nat n)) by lia.
  rewrite seq_S, map_app; simpl.
  now rewrite Z2Nat.id.
Qed.

Lemma range_cons n : 0 <= n -> range (n + 1) = 0 :: map (Z.add 1) (range n).
Proof.
  intros H; unfold range.
  replace (Z.to_nat (n + 1)) with (S (Z.to_nat n)) by lia.
  cbn [seq map]; f_equal.
  rewrite <- seq_shift, !map_map.
  apply map_ext; intros k; lia.
Qed.

Lemma in_range i n : In i (range n) <-> 0 <= i < n.
Proof.
  unfold range; rewrite in_map_iff; split.
  - intros (k & <- & Hk); apply in_seq in Hk; lia.
  - intros H; exists (Z.to_nat i); split; [lia|apply in_seq; lia].
Qed.

Lemma len_range n : 0 <= n -> len (range n) = n.
Proof.
  intros H; unfold len, range; rewrite length_map, length_seq; lia.
Qed.

Lemma at_index_range i n : 0 <= i < n -> at_index (range n) i = i.
Proof.
  intros H; unfold at_index, range.
  rewrite nth_indep with (d' := Z.of_nat 0)
    by (rewrite length_map, length_seq; lia).
  rewrite map_nth, seq_nth by lia; lia.
Qed.

Lemma wrap64_small z : - 2 ^ 63 <= z < 2 ^ 63 -> wrap64 z = z.
Proof.
  intros H; unfold wrap64.
  rewrite Z.mod_small by lia; lia.
Qed.

Lemma getitem_nonneg a i :
  0 <= i < len a -> a.[i] = Ret (at_index a i).
Proof.
  intros H; unfold getitem, at_index.
  destruct (Z.ltb_spec i 0); [lia|].
  destruct (Z.leb_spec 0 i); [|lia].
  destruct (Z.ltb_spec i (len a)); [|lia]; simpl.
  destruct (nth_error a (Z.to_nat i)) as [v|] eqn:E.
  - now rewrite (nth_error_nth _ _ _ E).
  - apply nth_error_None in E; unfold len in H; lia.
Qed.

Lemma getitem_negative a i :
  - len a <= i < 0 -> a.[i] = Ret (at_index a (len a + i)).
Proof.
  intros H; unfold getitem.
  destruct (Z.ltb_spec i 0); [|lia].
  pose proof (getitem_nonneg a (i + len a)) as G; unfold getitem in G.
  destruct (Z.ltb_spec (i + len a) 0); [lia|].
  rewrite G by lia; f_equal; f_equal; lia.
Qed.

Lemma getitem_raises a i :
  i < - len a \/ len a <= i -> a.[i] = Raise IndexError.
Proof.
  intros H; unfold getitem.
  destruct (Z.ltb_spec i 0).
  - destruct (Z.leb_spec 0 (i + len a)); simpl.
    + destruct (Z.ltb_spec (i + len a) (len a)); [|reflexivity].
      destruct H; [lia|]. pose proof (len_nonneg a); lia.
    + reflexivity.
  - destruct (Z.leb_spec 0 i); [|lia]; simpl.
    destruct (Z.ltb_spec i (len a)); [lia|reflexivity].
Qed.

(** ** Lemmas on indexed sequences *)

Lemma at_index_cons x l i :
  0 <= i -> at_index (x :: l) i = if i =? 0 then x else at_index l (i - 1).
Proof.
  intros H; unfold at_index.
  destruct (Z.eqb_spec i 0) as [->|N]; [reflexivity|].
  replace (Z.to_nat i) with (S (Z.to_nat (i - 1))) by lia; reflexivity.
Qed.

Lemma at_index_app l l' i :
  0 <= i ->
  at_index (l ++ l') i
  = if i <? len l then at_index l i else at_index l' (i - len l).
Proof.
  intros H; unfold at_index, len.
  destruct (Z.ltb_spec i (Z.of_nat (length l))).
  - apply app_nth1; lia.
  - rewrite app_nth2 by lia; f_equal; lia.
Qed.

Lemma at_index_map_range (f : Z -> Z) n i :
  0 <= i < n -> at_index (map f (range n)) i = f i.
Proof.
  intros H; unfold at_index.
  rewrite nth_indep with (d' := f 0)
    by (rewrite length_map; pose proof (len_range n); unfold len in *; lia).
  rewrite map_nth; f_equal; now apply at_index_range.
Qed.

Lemma strictly_increasing_at l :
  strictly_increasing l = true ->
  forall i, 0 <= i -> i + 1 < len l -> at_index l i < at_index l (i + 1).
Proof.
  induction l as [|a [|b t] IH]; intros Hs i Hi Hn.
  - unfold len in Hn; simpl in Hn; lia.
  - unfold len in Hn; simpl in Hn; lia.
  - simpl in Hs; apply andb_true_iff in Hs as [Hab Ht].
    apply Z.ltb_lt in Hab.
    rewrite (at_index_cons a), (at_index_cons a (b :: t) (i + 1)) by lia.
    destruct (Z.eqb_spec i 0) as [->|N].
    + simpl; exact Hab.
    + destruct (Z.eqb_spec (i + 1) 0); [lia|].
      replace (i + 1 - 1) with (i - 1 + 1) by lia.
      apply IH; [exact Ht|lia|].
      rewrite len_cons in Hn; lia.
Qed.

Lemma peaks_in_at W l :
  peaks_in W l = true ->
  forall i, 0 <= i < len l -> 0 <= at_index l i < W.
Proof.
  intros Hp i Hi; unfold peaks_in in Hp.
  rewrite forallb_forall in Hp.
  assert (In (at_index l i) l) as Hin
    by (apply nth_In; unfold len in Hi; lia).
  apply Hp in Hin; lia.
Qed.

Lemma non_decreasing_at l :
  (forall i, 0 <= i -> i + 1 < len l -> at_index l i <= at_index l (i + 1)) ->
  non_decreasing l = true.
Proof.
  induction l as [|a [|b t] IH]; intros H; [reflexivity|reflexivity|].
  simpl; apply andb_true_iff; split.
  - apply Z.leb_le; apply (H 0); [lia|].
    rewrite !len_cons; pose proof (len_nonneg t); lia.
  - apply IH; intros i Hi Hn.
    specialize (H (i + 1)).
    rewrite (at_index_cons a), (at_index_cons a (b :: t) (i + 1 + 1)) in H
      by lia.
    destruct (Z.eqb_spec (i + 1) 0); [lia|].
    destruct (Z.eqb_spec (i + 1 + 1) 0); [lia|].
    replace (i + 1 - 1) with i in H by lia.
    replace (i + 1 + 1 - 1) with (i + 1) in H by lia.
    apply H; [lia|]. rewrite len_cons; lia.
Qed.

(** ** Region Segmenter: the code computes the specification's boundaries *)

Section Segmenter.

Variable peaks : list Z.
Variable W : Z.
Hypothesis enough : 2 <= len peaks.
Hypothesis increasing : strictly_increasing peaks = true.
Hypothesis inside : peaks_in W peaks = true.
Hypothesis fits : W <= 2 ^ 62.

Let n := len peaks.

Lemma peak_bounds i : 0 <= i < n -> 0 <= at_index peaks i < W.
Proof. now apply peaks_in_at. Qed.

Lemma peak_step i : 0 <= i -> i + 1 < n -> at_index peaks i < at_index peaks (i + 1).
Proof. now apply strictly_increasing_at. Qed.

Lemma midpoint_loop (k : nat) (rb : list Z) :
  Z.of_nat k <= n - 1 ->
  for_each (range (Z.of_nat k))
    (fun i region_boundaries =>
       pi <- peaks.[i] ;;
       pj <- peaks.[i + 1] ;;
       let midpoint := floordiv64 (add64 pi pj) 2 in
       Ret (region_boundaries ++ [midpoint]))
    rb
  = Ret (rb ++ map (spec_midpoint peaks) (range (Z.of_nat k))).
Proof.
  induction k as [|k IH]; intros Hk.
  - simpl; now rewrite app_nil_r.
  - replace (Z.of_nat (S k)) with (Z.of_nat k + 1) by lia.
    rewrite range_succ, for_each_app, IH by lia.
    simpl.
    rewrite !getitem_nonneg by (fold n; lia); simpl.
    pose proof (peak_bounds (Z.of_nat k)) as B1.
    pose proof (peak_bounds (Z.of_nat k + 1)) as B2.
    unfold floordiv64, add64.
    rewrite (wrap64_small (_ + _)) by lia.
    rewrite wrap64_small by (Z.div_mod_to_equations; lia).
    now rewrite map_app, app_assoc.
Qed.

Lemma region_boundaries_spec :
  region_boundaries peaks W = Ret (spec_boundaries peaks W).
Proof.
  unfold region_boundaries.
  rewrite !getitem_nonneg by (fold n; lia); simpl.
  replace (len peaks - 1) with (Z.of_nat (Z.to_nat (n - 1))) by (fold n; lia).
  rewrite midpoint_loop by lia; simpl.
  rewrite !getitem_negative by (fold n; lia); simpl.
  unfold spec_boundaries, spec_left_bound, spec_right_bound; fold n.
  replace (Z.of_nat (Z.to_nat (n - 1))) with (n - 1) by lia.
  replace (n + -1) with (n - 1) by lia.
  replace (n + -2) with (n - 2) by lia.
  pose proof (peak_bounds 0) as B0.
  pose proof (peak_bounds 1) as B1.
  pose proof (peak_bounds (n - 1)) as Bl.
  pose proof (peak_bounds (n - 2)) as Bm.
  unfold floordiv64, add64, sub64.
  rewrite (wrap64_small (at_index peaks 1 - _)) by lia.
  rewrite (wrap64_small (_ / 2)) by (Z.div_mod_to_equations; lia).
  rewrite (wrap64_small (at_index peaks 0 - _))
    by (Z.div_mod_to_equations; lia).
  rewrite (wrap64_small (at_index peaks (n - 1) - _)) by lia.
  rewrite (wrap64_small (_ / 2)) by (Z.div_mod_to_equations; lia).
  rewrite (wrap64_small (at_index peaks (n - 1) + _))
    by (Z.div_mod_to_equations; lia).
  reflexivity.
Qed.

Lemma len_spec_boundaries : len (spec_boundaries peaks W) = n + 1.
Proof.
  unfold spec_boundaries.
  rewrite !len_app, len_map, len_range by lia.
  change (len [spec_left_bound peaks]) with 1.
  change (len [spec_right_bound peaks W]) with 1.
  fold n; lia.
Qed.

Lemma at_spec_boundaries i :
  0 <= i <= n ->
  at_index (spec_boundaries peaks W) i
  = if i =? 0 then spec_left_bound peaks
    else if i =? n then spec_right_bound peaks W
    else spec_midpoint peaks (i - 1).
Proof.
  intros Hi; unfold spec_boundaries.
  change ([spec_left_bound peaks] ++ ?l) with (spec_left_bound peaks :: l).
  rewrite at_index_cons by lia.
  destruct (Z.eqb_spec i 0); [reflexivity|].
  rewrite at_index_app by lia.
  assert (len (map (spec_midpoint peaks) (range (len peaks - 1))) = n - 1)
    as ->.
  { rewrite len_map, len_range by lia; reflexivity. }
  destruct (Z.ltb_spec (i - 1) (n - 1)); destruct (Z.eqb_spec i n); try lia.
  - apply at_index_map_range; fold n; lia.
  - replace (i - 1 - (n - 1)) with 0 by lia; reflexivity.
Qed.

Lemma spec_boundaries_step i :
  0 <= i < n ->
  at_index (spec_boundaries peaks W) i
  <= at_index (spec_boundaries peaks W) (i + 1).
Proof.
  intros Hi; rewrite !at_spec_boundaries by lia.
  unfold spec_left_bound, spec_right_bound, spec_midpoint; fold n.
  pose proof (peak_bounds (n - 1)) as Bl.
  pose proof (peak_step (n - 2)) as Sl.
  replace (n - 2 + 1) with (n - 1) in Sl by lia.
  destruct (Z.eqb_spec i 0) as [E0|N0].
  - pose proof (peak_bounds 0) as B0. pose proof (peak_step 0) as S0.
    destruct (Z.eqb_spec (i + 1) 0); [lia|].
    destruct (Z.eqb_spec (i + 1) n); [lia|].
    replace (i + 1 - 1) with 0 by lia.
    change (0 + 1) with 1 in *.
    Z.div_mod_to_equations; lia.
  - destruct (Z.eqb_spec (i + 1) 0); [lia|].
    destruct (Z.eqb_spec i n); [lia|].
    destruct (Z.eqb_spec (i + 1) n) as [E|NE].
    + replace (i - 1) with (n - 2) by lia.
      replace (n - 2 + 1) with (n - 1) by lia.
      Z.div_mod_to_equations; lia.
    + replace (i + 1 - 1) with (i - 1 + 1) by lia.
      pose proof (peak_step (i - 1)) as S1.
      pose proof (peak_step (i - 1 + 1)) as S2.
      Z.div_mod_to_equations; lia.
Qed.

Lemma spec_boundaries_non_decreasing :
  non_decreasing (spec_boundaries peaks W) = true.
Proof.
  apply non_decreasing_at; intros i Hi Hn.
  rewrite len_spec_boundaries in Hn.
  apply spec_boundaries_step; lia.
Qed.

Lemma spec_bounds_inside :
  0 <= spec_left_bound peaks <= spec_right_bound peaks W
  /\ spec_right_bound peaks W <= W.
Proof.
  unfold spec_left_bound, spec_right_bound; fold n.
  pose proof (peak_bounds 0) as B0. pose proof (peak_step 0) as S0.
  change (0 + 1) with 1 in S0.
  pose proof (peak_bounds (n - 1)) as Bl.
  pose proof (peak_step (n - 2)) as Sl.
  replace (n - 2 + 1) with (n - 1) in Sl by lia.
  assert (at_index peaks 0 <= at_index peaks (n - 2)) as Hmono.
  { clear Sl Bl S0 B0.
    assert (forall k : nat, Z.of_nat k <= n - 1 ->
              at_index peaks 0 <= at_index peaks (Z.of_nat k)) as M.
    { induction k as [|k IH]; intros Hk; [simpl; lia|].
      pose proof (peak_step (Z.of_nat k)).
      replace (Z.of_nat (S k)) with (Z.of_nat k + 1) by lia.
      specialize (IH ltac:(lia)); lia. }
    specialize (M (Z.to_nat (n - 2))).
    replace (Z.of_nat (Z.to_nat (n - 2))) with (n - 2) in M by lia.
    apply M; lia. }
  Z.div_mod_to_equations; lia.
Qed.

End Segmenter.

(** ** Regions read off a non-decreasing boundary sequence *)

Lemma regions_of_cons a b t :
  regions_of (a :: b :: t) = (a, b) :: regions_of (b :: t).
Proof. reflexivity. Qed.

Lemma len_regions_of b : b <> [] -> len (regions_of b) = len b - 1.
Proof.
  destruct b as [|a t]; [congruence|intros _].
  unfold regions_of, len; rewrite length_combine; cbn [tl length]; lia.
Qed.

Lemma last_indep (l : list Z) d d' : l <> [] -> last l d = last l d'.
Proof.
  induction l as [|a [|b t] IH]; intros H; [congruence|reflexivity|].
  change (last (b :: t) d = last (b :: t) d'); apply IH; congruence.
Qed.

Lemma non_decreasing_last a t :
  non_decreasing (a :: t) = true -> a <= last (a :: t) a.
Proof.
  revert a; induction t as [|b t IH]; intros a H; [simpl; lia|].
  simpl in H; apply andb_true_iff in H as [Hab Ht]; apply Z.leb_le in Hab.
  change (a <= last (b :: t) a).
  rewrite (last_indep (b :: t) a b) by congruence.
  specialize (IH b Ht); lia.
Qed.

Lemma contiguous_regions_of b : contiguous (regions_of b) = true.
Proof.
  destruct b as [|a t]; [reflexivity|].
  revert a; induction t as [|b [|c t] IH]; intros a; try reflexivity.
  rewrite regions_of_cons.
  change (((b =? b) && contiguous (regions_of (b :: c :: t))) = true).
  now rewrite Z.eqb_refl, IH.
Qed.

Lemma last_regions_of a b t d :
  snd (last (regions_of (a :: b :: t)) d) = last (a :: b :: t) a.
Proof.
  revert a b; induction t as [|c t IH]; intros a b; [reflexivity|].
  rewrite regions_of_cons.
  change (snd (last (regions_of (b :: c :: t)) d) = last (b :: c :: t) a).
  rewrite IH; apply last_indep; congruence.
Qed.

Lemma covering_regions_of a t c :
  non_decreasing (a :: t) = true ->
  covering c (regions_of (a :: t))
  = if (a <=? c) && (c <? last (a :: t) a) then 1%nat else 0%nat.
Proof.
  revert a; induction t as [|b t IH]; intros a H.
  - change (covering c (regions_of [a])) with 0%nat; simpl last.
    destruct (Z.leb_spec a c), (Z.ltb_spec c a); simpl; lia.
  - pose proof (non_decreasing_last b t) as Hl.
    simpl in H; apply andb_true_iff in H as [Hab Ht]; apply Z.leb_le in Hab.
    specialize (IH b Ht); specialize (Hl Ht).
    rewrite regions_of_cons.
    change (last (a :: b :: t) a) with (last (b :: t) a).
    rewrite (last_indep (b :: t) a b) by congruence.
    unfold covering in *; simpl filter; unfold in_region at 1; simpl fst;
      simpl snd.
    destruct (Z.leb_spec a c), (Z.ltb_spec c b); simpl length; rewrite IH;
      destruct (Z.leb_spec b c), (Z.ltb_spec c (last (b :: t) b));
      simpl; lia.
Qed.

Lemma tiles_regions_of a b t :
  non_decreasing (a :: b :: t) = true ->
  tiles a (last (a :: b :: t) a) (regions_of (a :: b :: t)).
Proof.
  intros H; repeat split.
  - apply last_regions_of.
  - apply contiguous_regions_of.
  - intros c; now apply covering_regions_of.
Qed.

(** ** Region Segmenter: the claims *)

(** C6. For a strictly increasing peak sequence of length n >= 2 inside
    [0, W) (W within what an int64 sum of two peaks holds), the Region
    Segmenter returns without an exception the n + 1 boundaries of the
    specification -- left bound, midpoints, right bound --, hence n regions,
    and the boundary sequence is non-decreasing. *)
Theorem region_boundaries_count_and_order (peaks : list Z) (W : Z) :
  2 <= len peaks ->
  strictly_increasing peaks = true ->
  peaks_in W peaks = true ->
  W <= 2 ^ 62 ->
  exists b,
    region_boundaries peaks W = Ret b
    /\ b = spec_boundaries peaks W
    /\ len b = len peaks + 1
    /\ len (regions_of b) = len peaks
    /\ non_decreasing b = true.
Proof.
  intros Hn Hs Hp HW.
  exists (spec_boundaries peaks W).
  pose proof (len_spec_boundaries peaks W Hn) as L.
  split; [now apply region_boundaries_spec|].
  split; [reflexivity|].
  split; [exact L|].
  split; [|now apply spec_boundaries_non_decreasing].
  rewrite len_regions_of; [lia|].
  intros E; rewrite E in L; change (len (@nil Z)) with 0 in L; lia.
Qed.

Lemma region_boundaries_count_and_order_witness :
  exists b,
    region_boundaries [100; 250; 400; 550] 1000 = Ret b
    /\ b = spec_boundaries [100; 250; 400; 550] 1000
    /\ len b = len [100; 250; 400; 550] + 1
    /\ len (regions_of b) = len [100; 250; 400; 550]
    /\ non_decreasing b = true.
Proof.
  apply (region_boundaries_count_and_order [100; 250; 400; 550] 1000);
    [vm_compute; congruence | reflexivity | reflexivity
    | vm_compute; congruence].
Defined.

(** C1, as the specification states it, fails: with peaks at columns 100 and
    250 of a profile of width 1000 the regions are [25, 175) and [175, 325);
    they start at column 25, not 0, and end at column 325, not 1000. *)
Lemma region_segmenter_leaves_margins :
  strictly_increasing [100; 250] = true
  /\ peaks_in 1000 [100; 250] = true
  /\ region_boundaries [100; 250] 1000 = Ret [25; 175; 325]
  /\ ~ tiles 0 1000 (regions_of [25; 175; 325]).
Proof.
  repeat split.
  intros (H & _); vm_compute in H; discriminate.
Qed.

(** C1, amended. For a strictly increasing peak sequence of length n >= 2
    inside [0, W), the Region Segmenter returns n ordered half-open regions
    that cover exactly [L, R), where L = max(0, peak[0] - (peak[1] -
    peak[0]) // 2) and R = min(W, peak[-1] + (peak[-1] - peak[-2]) // 2) and
    0 <= L <= R <= W: the first region starts at L, the last ends at R,
    consecutive regions share a boundary, every column of [L, R) is in one
    region and only one, and no other column is in any.  (W <= 2^62: the
    int64 sum of two peaks does not wrap.) *)
Theorem region_segmenter_tiles_extrapolated_span (peaks : list Z) (W : Z) :
  2 <= len peaks ->
  strictly_increasing peaks = true ->
  peaks_in W peaks = true ->
  W <= 2 ^ 62 ->
  exists b,
    region_boundaries peaks W = Ret b
    /\ len (regions_of b) = len peaks
    /\ tiles (spec_left_bound peaks) (spec_right_bound peaks W) (regions_of b)
    /\ 0 <= spec_left_bound peaks <= spec_right_bound peaks W
    /\ spec_right_bound peaks W <= W.
Proof.
  intros Hn Hs Hp HW.
  exists (spec_boundaries peaks W).
  pose proof (len_spec_boundaries peaks W Hn) as L.
  pose proof (spec_boundaries_non_decreasing peaks W Hn Hs Hp) as ND.
  pose proof (spec_bounds_inside peaks W Hn Hs Hp) as (B1 & B2).
  split; [now apply region_boundaries_spec|].
  assert (spec_boundaries peaks W <> []) as NE.
  { intros E; rewrite E in L; change (len (@nil Z)) with 0 in L; lia. }
  split; [rewrite len_regions_of by exact NE; lia|].
  split; [|split; assumption].
  unfold spec_boundaries in *.
  remember (map (spec_midpoint peaks) (range (len peaks - 1))) as mids.
  assert (mids <> []) as NM.
  { intros E; subst mids; apply (f_equal len) in E.
    rewrite len_map, len_range in E by lia.
    change (len (@nil Z)) with 0 in E; lia. }
  destruct mids as [|m mids]; [congruence|].
  pose proof (tiles_regions_of (spec_left_bound peaks) m
                (mids ++ [spec_right_bound peaks W]) ND) as T.
  change (last (spec_left_bound peaks :: m :: mids ++ [spec_right_bound peaks W])
            (spec_left_bound peaks))
    with (last ((m :: mids) ++ [spec_right_bound peaks W])
            (spec_left_bound peaks)) in T.
  rewrite last_last in T; exact T.
Qed.

Lemma region_segmenter_tiles_extrapolated_span_witness :
  exists b,
    region_boundaries [100; 250; 400; 550] 1000 = Ret b
    /\ len (regions_of b) = len [100; 250; 400; 550]
    /\ tiles (spec_left_bound [100; 250; 400; 550])
         (spec_right_bound [100; 250; 400; 550] 1000) (regions_of b)
    /\ 0 <= spec_left_bound [100; 250; 400; 550]
         <= spec_right_bound [100; 250; 400; 550] 1000
    /\ spec_right_bound [100; 250; 400; 550] 1000 <= 1000.
Proof.
  apply (region_segmenter_tiles_extrapolated_span [100; 250; 400; 550] 1000);
    [vm_compute; congruence | reflexivity | reflexivity
    | vm_compute; congruence].
Defined.

(** ** Landmark Locator: the pieces of one column scan *)

Lemma in_np_where_gt col thr y :
  In y (np_where_gt col thr) <-> 0 <= y < len col /\ thr < at_index col y.
Proof.
  unfold np_where_gt; rewrite filter_In, in_range, Z.ltb_lt; reflexivity.
Qed.

Lemma fold_min_spec t : forall y,
  let m := fold_left Z.min t y in
  In m (y :: t) /\ forall z, In z (y :: t) -> m <= z.
Proof.
  induction t as [|a t IH]; intros y; simpl.
  - split; [now left|intros z [<-|[]]; lia].
  - destruct (IH (Z.min y a)) as (Hin & Hle); split.
    + destruct Hin as [E|Hin]; [|now right; right].
      rewrite <- E; destruct (Z.min_spec y a) as [(_ & ->)|(_ & ->)];
        [now left|now right; left].
    + intros z [<-|[<-|Hz]].
      * specialize (Hle (Z.min y a) (or_introl eq_refl)); lia.
      * specialize (Hle (Z.min y a) (or_introl eq_refl)); lia.
      * apply Hle; now right.
Qed.

Lemma np_min_spec l :
  l <> [] ->
  exists m, np_min l = Ret m /\ In m l /\ forall z, In z l -> m <= z.
Proof.
  destruct l as [|y t]; [congruence|intros _].
  exists (fold_left Z.min t y); split; [reflexivity|apply fold_min_spec].
Qed.

Lemma len_pos_nonempty {A : Type} (l : list A) : len l > 0 <-> l <> [].
Proof.
  destruct l; unfold len; simpl; split; intros H; try congruence; lia.
Qed.

Lemma len_column a c : len (column a c) = shape0 a.
Proof. unfold column, shape0; apply len_map. Qed.

Lemma at_index_column a c r :
  0 <= r -> 0 <= c -> at_index (column a c) r = pixel a r c.
Proof.
  intros Hr Hc; unfold at_index, column, pixel.
  destruct (Z.leb_spec 0 r); [|lia].
  destruct (Z.leb_spec 0 c); [|lia]; simpl.
  pose proof (map_nth (fun row => nth (Z.to_nat c) row 0) (rows a) []
                (Z.to_nat r)) as M.
  cbv beta in M; rewrite <- M; f_equal.
  destruct (Z.to_nat c); reflexivity.
Qed.

(** ** Landmark Locator: the loop over the columns of a region *)

Lemma scan_column_step sub k best :
  0 <= k ->
  scanned sub k best ->
  exists best', scan_column sub k best = Ret best' /\ scanned sub (k + 1) best'.
Proof.
  intros Hk Inv; destruct best as (min_y, min_x_local).
  unfold scan_column.
  set (valid_y := np_where_gt (column sub k) intensity_threshold).
  assert (forall y, In y valid_y <-> 0 <= y < shape0 sub /\ bright sub y k)
    as Hvalid.
  { intros y; unfold valid_y; rewrite in_np_where_gt, len_column.
    unfold bright; split; intros (Hy & Hb); split; try exact Hy.
    - rewrite at_index_column in Hb by lia; exact Hb.
    - rewrite at_index_column by lia; exact Hb. }
  destruct (Z.gtb_spec (len valid_y) 0) as [Hpos|Hzero].
  - apply Z.lt_gt, len_pos_nonempty, np_min_spec in Hpos
      as (y & -> & Hin & Hmin).
    rewrite bind_ret.
    apply Hvalid in Hin as (Hy & Hby).
    assert (forall r, 0 <= r < shape0 sub -> bright sub r k -> y <= r)
      as Hmin'
      by (intros r Hr Hb; apply Hmin, Hvalid; now split).
    destruct (Z.ltb_spec y min_y) as [Hlt|Hge].
    + exists (y, k); split; [reflexivity|].
      right; repeat split; try lia; [exact Hby|].
      intros j r Hj Hr Hb.
      destruct (Z.eq_dec j k) as [->|Hjk].
      * specialize (Hmin' r Hr Hb); lia.
      * destruct Inv as [(_ & _ & Hnone)|(_ & _ & _ & Hall)].
        -- exfalso; apply (Hnone j r); [lia|exact Hr|exact Hb].
        -- destruct (Hall j r ltac:(lia) Hr Hb); lia.
    + exists (min_y, min_x_local); split; [reflexivity|].
      destruct Inv as [(_ & Hmy & _)|(Hx & Hmy & Hb0 & Hall)]; [lia|].
      right; repeat split; try lia; [exact Hb0|].
      intros j r Hj Hr Hb.
      destruct (Z.eq_dec j k) as [->|Hjk].
      * specialize (Hmin' r Hr Hb); lia.
      * apply Hall; [lia|exact Hr|exact Hb].
  - assert (valid_y = []) as Hnil.
    { destruct valid_y; [reflexivity|]. rewrite len_cons in Hzero.
      pose proof (len_nonneg valid_y); lia. }
    assert (forall r, 0 <= r < shape0 sub -> ~ bright sub r k) as Hdark.
    { intros r Hr Hb.
      assert (In r valid_y) as Hin by (apply Hvalid; now split).
      rewrite Hnil in Hin; exact Hin. }
    exists (min_y, min_x_local); split; [reflexivity|].
    destruct Inv as [(Hx & Hmy & Hnone)|(Hx & Hmy & Hb0 & Hall)].
    + left; repeat split; try assumption.
      intros j r Hj Hr.
      destruct (Z.eq_dec j k) as [->|Hjk]; [now apply Hdark|].
      apply Hnone; [lia|exact Hr].
    + right; repeat split; try lia; [exact Hb0|].
      intros j r Hj Hr Hb.
      destruct (Z.eq_dec j k) as [->|Hjk]; [now apply Hdark in Hb|].
      apply Hall; [lia|exact Hr|exact Hb].
Qed.

Lemma scan_columns sub (k : nat) :
  exists best,
    for_each (range (Z.of_nat k)) (scan_column sub) (shape0 sub, -1) = Ret best
    /\ scanned sub (Z.of_nat k) best.
Proof.
  induction k as [|k (best & Hrun & Inv)].
  - exists (shape0 sub, -1); split; [reflexivity|].
    left; repeat split; intros; lia.
  - replace (Z.of_nat (S k)) with (Z.of_nat k + 1) by lia.
    rewrite range_succ, for_each_app, Hrun by lia; simpl.
    destruct (scan_column_step sub (Z.of_nat k) best ltac:(lia) Inv)
      as (best' & -> & Inv').
    exists best'; split; [reflexivity|exact Inv'].
Qed.

(** ** Landmark Locator: a region of the image as a sub-array *)

Lemma shape0_slice_columns gray x0 x1 :
  shape0 (slice_columns gray x0 x1) = shape0 gray.
Proof. unfold shape0, slice_columns; simpl; apply len_map. Qed.

Lemma shape1_slice_columns gray x0 x1 :
  region_of_image gray x0 x1 = true ->
  shape1 (slice_columns gray x0 x1) = x1 - x0.
Proof.
  unfold region_of_image, slice_columns, slice_index; simpl; intros R.
  apply andb_true_iff in R as (R & R3); apply andb_true_iff in R as (R1 & R2).
  apply Z.leb_le in R1, R2, R3.
  destruct (Z.ltb_spec x0 0), (Z.ltb_spec x1 0); lia.
Qed.

Lemma well_shaped_row gray r :
  well_shaped gray = true ->
  0 <= r < shape0 gray ->
  len (nth (Z.to_nat r) (rows gray) []) = shape1 gray.
Proof.
  unfold well_shaped, shape0; intros Wf Hr.
  apply andb_true_iff in Wf as (_ & Wf).
  rewrite forallb_forall in Wf.
  apply Z.eqb_eq, Wf, nth_In; unfold len in Hr; lia.
Qed.

Lemma pixel_slice_columns gray x0 x1 r k :
  well_shaped gray = true ->
  region_of_image gray x0 x1 = true ->
  0 <= r < shape0 gray ->
  0 <= k < x1 - x0 ->
  pixel (slice_columns gray x0 x1) r k = pixel gray r (x0 + k).
Proof.
  intros Wf R Hr Hk.
  pose proof (well_shaped_row gray r Wf Hr) as Hrow.
  unfold region_of_image in R.
  apply andb_true_iff in R as (R & R3); apply andb_true_iff in R as (R1 & R2).
  apply Z.leb_le in R1, R2, R3.
  unfold pixel, slice_columns; simpl rows.
  destruct (Z.leb_spec 0 r); [|lia].
  destruct (Z.leb_spec 0 k); [|lia].
  destruct (Z.leb_spec 0 (x0 + k)); [|lia]; simpl.
  rewrite nth_indep with (d' := slice x0 x1 [])
    by (rewrite length_map; unfold shape0, len in Hr; lia).
  rewrite map_nth; unfold slice; rewrite Hrow; unfold slice_index.
  destruct (Z.ltb_spec x0 0); [lia|].
  destruct (Z.ltb_spec x1 0); [lia|].
  rewrite nth_firstn, nth_skipn.
  rewrite !Z.min_l by lia.
  destruct (Nat.ltb_spec (Z.to_nat k) (Z.to_nat (x1 - x0))); [|lia].
  f_equal; lia.
Qed.

(** ** Landmark Locator: one region *)

Lemma landmark_locator_scan gray x0 x1 :
  exists best,
    scanned (slice_columns gray x0 x1)
      (shape1 (slice_columns gray x0 x1)) best
    /\ landmark_locator gray x0 x1
       = Ret (if (snd best >=? 0) && (fst best <? shape0 gray)
              then Some (add64 x0 (snd best), fst best)
              else None).
Proof.
  set (sub := slice_columns gray x0 x1).
  assert (0 <= shape1 sub) as Hw by (unfold sub, slice_columns; simpl; lia).
  destruct (scan_columns sub (Z.to_nat (shape1 sub))) as (best & Hrun & Inv).
  rewrite Z2Nat.id in Hrun, Inv by exact Hw.
  exists best; split; [exact Inv|].
  unfold landmark_locator; fold sub.
  assert (shape0 sub = shape0 gray) as E by apply shape0_slice_columns.
  rewrite E in Hrun; rewrite Hrun, bind_ret.
  destruct best as (min_y, min_x_local); simpl.
  destruct ((min_x_local >=? 0) && (min_y <? shape0 gray)); reflexivity.
Qed.

Lemma landmark_locator_total gray x0 x1 :
  exists found, landmark_locator gray x0 x1 = Ret found.
Proof.
  destruct (landmark_locator_scan gray x0 x1) as (best & _ & ->); eauto.
Qed.

Lemma landmark_locator_spec gray x0 x1 :
  well_shaped gray = true ->
  region_of_image gray x0 x1 = true ->
  exists found,
    landmark_locator gray x0 x1 = Ret found
    /\ match found with
       | Some (c, r) => topmost_leftmost gray x0 x1 c r
       | None =>
           forall r c, pixel_of_region gray x0 x1 r c -> ~ bright gray r c
       end.
Proof.
  intros Wf R.
  destruct (landmark_locator_scan gray x0 x1) as (best & Inv & ->).
  rewrite (shape1_slice_columns gray x0 x1 R) in Inv.
  destruct best as (min_y, min_x_local); unfold scanned in Inv.
  rewrite shape0_slice_columns in Inv.
  assert (forall r k, 0 <= r < shape0 gray -> 0 <= k < x1 - x0 ->
            (bright (slice_columns gray x0 x1) r k
             <-> bright gray r (x0 + k))) as Hpix.
  { intros r k Hr Hk; unfold bright.
    now rewrite pixel_slice_columns. }
  pose proof R as R'; unfold region_of_image in R'.
  apply andb_true_iff in R' as (R' & R3);
    apply andb_true_iff in R' as (R1 & R2).
  apply Z.leb_le in R1, R2, R3.
  assert (shape1 gray < 2 ^ 63) as HW.
  { unfold well_shaped in Wf.
    apply andb_true_iff in Wf as (Wf & _).
    apply andb_true_iff in Wf as (Wf & _).
    apply andb_true_iff in Wf as (_ & Wf); now apply Z.ltb_lt. }
  simpl fst; simpl snd.
  eexists; split; [reflexivity|].
  destruct Inv as [(Hx & Hy & Hnone)|(Hx & Hy & Hb & Hall)].
  - subst min_x_local; simpl.
    intros r c (Hr & Hc) Hbright.
    apply (Hnone (c - x0) r); [lia|exact Hr|].
    apply Hpix; [exact Hr|lia|].
    replace (x0 + (c - x0)) with c by lia; exact Hbright.
  - destruct (Z.geb_spec min_x_local 0); [|lia].
    destruct (Z.ltb_spec min_y (shape0 gray)); [|lia]; simpl.
    unfold add64; rewrite wrap64_small by lia.
    repeat split; try lia.
    + apply Hpix; [lia|lia|exact Hb].
    + intros r c (Hr & Hc) Hbright.
      destruct (Hall (c - x0) r) as [Hlt|(He & Hle)]; try lia.
      apply Hpix; [exact Hr|lia|].
      replace (x0 + (c - x0)) with c by lia; exact Hbright.
Qed.

Lemma topmost_leftmost_unique gray x0 x1 c r c' r' :
  topmost_leftmost gray x0 x1 c r ->
  topmost_leftmost gray x0 x1 c' r' ->
  c = c' /\ r = r'.
Proof.
  intros (P & B & M) (P' & B' & M').
  specialize (M r' c' P' B'); specialize (M' r c P B); lia.
Qed.

Lemma region_is_dark_spec gray x0 x1 :
  region_is_dark gray x0 x1 = true ->
  forall r c, pixel_of_region gray x0 x1 r c -> ~ bright gray r c.
Proof.
  unfold region_is_dark; intros D r c (Hr & Hc) Hb.
  rewrite forallb_forall in D.
  specialize (D r (proj2 (in_range r (shape0 gray)) Hr)).
  rewrite forallb_forall in D.
  specialize (D (c - x0) (proj2 (in_range (c - x0) (x1 - x0)) ltac:(lia))).
  replace (x0 + (c - x0)) with c in D by lia.
  apply Z.leb_le in D; unfold bright in Hb; lia.
Qed.

(** ** Landmark Locator: the loop over the regions *)

Lemma getitem_cons_succ a l i :
  0 <= i -> (a :: l).[1 + i] = l.[i].
Proof.
  intros Hi.
  destruct (Z.lt_ge_cases i (len l)) as [Hlt|Hge].
  - rewrite !getitem_nonneg by (rewrite ?len_cons; lia).
    rewrite at_index_cons by lia.
    destruct (Z.eqb_spec (1 + i) 0); [lia|].
    do 2 f_equal; lia.
  - rewrite !getitem_raises by (rewrite ?len_cons; lia); reflexivity.
Qed.

Lemma highest_peaks_loop gray rb : forall acc,
  for_each (range (len rb - 1))
    (fun i highest_peaks =>
       x0 <- rb.[i] ;;
       x1 <- rb.[i + 1] ;;
       found <- landmark_locator gray x0 x1 ;;
       match found with
       | Some pt => Ret (highest_peaks ++ [pt])
       | None => Ret highest_peaks
       end)
    acc
  = Ret (acc ++ flat_map (found_in gray) (regions_of rb)).
Proof.
  induction rb as [|a [|b t] IH]; intros acc.
  - simpl; now rewrite app_nil_r.
  - simpl; now rewrite app_nil_r.
  - rewrite regions_of_cons.
    replace (len (a :: b :: t) - 1) with (len (b :: t) - 1 + 1)
      by (rewrite !len_cons; lia).
    rewrite range_cons by (rewrite len_cons; pose proof (len_nonneg t); lia).
    cbn [for_each].
    rewrite !getitem_nonneg
      by (rewrite !len_cons; pose proof (len_nonneg t); lia).
    rewrite !bind_ret.
    change (at_index (a :: b :: t) 0) with a.
    change (at_index (a :: b :: t) (0 + 1)) with b.
    cbn [flat_map].
    destruct (landmark_locator_total gray a b) as (found & E).
    assert (found_in gray (a, b)
            = match found with Some pt => [pt] | None => [] end) as ->
      by (unfold found_in; cbn [fst snd]; rewrite E; now destruct found).
    rewrite E, bind_ret.
    assert (forall acc',
      for_each (map (Z.add 1) (range (len (b :: t) - 1)))
        (fun i highest_peaks =>
           x0 <- (a :: b :: t).[i] ;;
           x1 <- (a :: b :: t).[i + 1] ;;
           found <- landmark_locator gray x0 x1 ;;
           match found with
           | Some pt => Ret (highest_peaks ++ [pt])
           | None => Ret highest_peaks
           end) acc'
      = Ret (acc' ++ flat_map (found_in gray) (regions_of (b :: t)))) as Hrest.
    { intros acc'; rewrite <- IH, for_each_map.
      apply for_each_ext; intros i s Hi; apply in_range in Hi.
      replace (1 + i + 1) with (1 + (i + 1)) by lia.
      rewrite !getitem_cons_succ by lia; reflexivity. }
    destruct found as [pt|]; rewrite bind_ret, Hrest.
    + now rewrite <- app_assoc.
    + reflexivity.
Qed.

Lemma highest_peaks_regions gray rb :
  highest_peaks gray rb = Ret (flat_map (found_in gray) (regions_of rb)).
Proof. unfold highest_peaks; now rewrite highest_peaks_loop. Qed.

Lemma regions_of_split pre x0 x1 post :
  regions_of (pre ++ x0 :: x1 :: post)
  = regions_of (pre ++ [x0]) ++ (x0, x1) :: regions_of (x1 :: post).
Proof.
  induction pre as [|a pre IH]; [reflexivity|].
  destruct pre as [|b pre]; [reflexivity|].
  change ((a :: b :: pre) ++ ?l) with (a :: b :: pre ++ l).
  rewrite !regions_of_cons.
  change (b :: pre ++ ?l) with ((b :: pre) ++ l).
  now rewrite IH.
Qed.

(** ** Landmark Locator: the claims *)

(** C2. For every intensity matrix and every region [x0, x1) of it, the
    Landmark Locator returns without an exception, and it returns the pair
    (column, row) exactly when that pixel is, among the pixels of the region
    whose intensity strictly exceeds the threshold, the one with the smallest
    row index and, among the columns that attain this row, the leftmost.  The
    threshold is 0, so that on non-negative intensities the qualifying pixels
    are the non-zero ones. *)
Theorem landmark_locator_topmost_leftmost (gray : ndarray2) (x0 x1 : Z) :
  well_shaped gray = true ->
  region_of_image gray x0 x1 = true ->
  intensity_threshold = 0
  /\ (forall r c, 0 <= pixel gray r c ->
        (bright gray r c <-> pixel gray r c <> 0))
  /\ (exists found, landmark_locator gray x0 x1 = Ret found)
  /\ forall c r,
       landmark_locator gray x0 x1 = Ret (Some (c, r))
       <-> topmost_leftmost gray x0 x1 c r.
Proof.
  intros Wf R.
  split; [reflexivity|].
  split; [intros r c Hp; unfold bright, intensity_threshold; lia|].
  split; [apply landmark_locator_total|].
  intros c r.
  destruct (landmark_locator_spec gray x0 x1 Wf R) as (found & E & Hspec).
  rewrite E; split.
  - intros Eq; injection Eq as ->; exact Hspec.
  - intros T; destruct found as [(c', r')|].
    + destruct (topmost_leftmost_unique _ _ _ _ _ _ _ Hspec T) as (-> & ->).
      reflexivity.
    + destruct T as (P & B & _); now apply (Hspec r c) in P.
Qed.

Lemma landmark_locator_topmost_leftmost_witness :
  let gray := {| shape1 := 6;
                 rows := [[0; 0; 0; 0; 0; 0];
                          [0; 7; 0; 0; 9; 0];
                          [3; 7; 0; 0; 9; 1]] |} in
  intensity_threshold = 0
  /\ (forall r c, 0 <= pixel gray r c ->
        (bright gray r c <-> pixel gray r c <> 0))
  /\ (exists found, landmark_locator gray 0 6 = Ret found)
  /\ forall c r,
       landmark_locator gray 0 6 = Ret (Some (c, r))
       <-> topmost_leftmost gray 0 6 c r.
Proof.
  intros gray.
  apply (landmark_locator_topmost_leftmost gray 0 6); reflexivity.
Defined.

(** C10. Every landmark (column, row) that the Landmark Locator produces for
    a region [x0, x1) of the image satisfies x0 <= column < x1 and
    0 <= row < H, and the pixel of the matrix at that row and column strictly
    exceeds the intensity threshold. *)
Theorem landmark_inside_region_and_bright (gray : ndarray2) (x0 x1 c r : Z) :
  well_shaped gray = true ->
  region_of_image gray x0 x1 = true ->
  landmark_locator gray x0 x1 = Ret (Some (c, r)) ->
  x0 <= c < x1
  /\ 0 <= r < shape0 gray
  /\ intensity_threshold < pixel gray r c.
Proof.
  intros Wf R E.
  destruct (landmark_locator_spec gray x0 x1 Wf R) as (found & E' & Hspec).
  rewrite E in E'; injection E' as <-.
  destruct Hspec as ((Hr & Hc) & Hb & _).
  repeat split; try lia; exact Hb.
Qed.

Lemma landmark_inside_region_and_bright_witness :
  let gray := {| shape1 := 6;
                 rows := [[0; 0; 0; 0; 0; 0];
                          [0; 7; 0; 0; 9; 0];
                          [3; 7; 0; 0; 9; 1]] |} in
  2 <= 4 < 6 /\ 0 <= 1 < shape0 gray /\ intensity_threshold < pixel gray 1 4.
Proof.
  intros gray.
  apply (landmark_inside_region_and_bright gray 2 6 4 1); reflexivity.
Defined.

(** C5. When no pixel of a region [x0, x1) strictly exceeds the threshold, the
    Landmark Locator produces no landmark for it, and the loop over the
    regions goes on without an exception: its result is the landmarks of the
    regions on the left of [x0, x1) followed by those of the regions on its
    right, exactly as these regions yield them on their own, and the
    calibrated values that follow are those of these landmarks. *)
Theorem dark_region_is_omitted (gray : ndarray2) (pre post : list Z)
    (x0 x1 : Z) :
  well_shaped gray = true ->
  region_of_image gray x0 x1 = true ->
  region_is_dark gray x0 x1 = true ->
  landmark_locator gray x0 x1 = Ret None
  /\ exists before after,
       highest_peaks gray (pre ++ [x0]) = Ret before
       /\ highest_peaks gray (x1 :: post) = Ret after
       /\ highest_peaks gray (pre ++ x0 :: x1 :: post) = Ret (before ++ after)
       /\ forall H y_bottom y_top,
            converted_y (map snd (before ++ after)) H y_bottom y_top
            = converted_y (map snd before) H y_bottom y_top
              ++ converted_y (map snd after) H y_bottom y_top.
Proof.
  intros Wf R D.
  assert (landmark_locator gray x0 x1 = Ret None) as E.
  { destruct (landmark_locator_spec gray x0 x1 Wf R) as (found & E & Hspec).
    destruct found as [(c, r)|]; [|exact E].
    destruct Hspec as (P & B & _).
    now apply (region_is_dark_spec gray x0 x1 D) in P. }
  split; [exact E|].
  exists (flat_map (found_in gray) (regions_of (pre ++ [x0]))),
         (flat_map (found_in gray) (regions_of (x1 :: post))).
  rewrite !highest_peaks_regions, regions_of_split, flat_map_app.
  assert (found_in gray (x0, x1) = []) as Dark
    by (unfold found_in; cbn [fst snd]; now rewrite E).
  cbn [flat_map]; rewrite Dark.
  repeat split.
  intros H y_bottom y_top; unfold converted_y; now rewrite !map_app.
Qed.

Lemma dark_region_is_omitted_witness :
  let gray := {| shape1 := 6;
                 rows := [[0; 0; 0; 0; 0; 0];
                          [0; 7; 0; 0; 9; 0];
                          [3; 7; 0; 0; 9; 1]] |} in
  landmark_locator gray 2 4 = Ret None
  /\ exists before after,
       highest_peaks gray ([0] ++ [2]) = Ret before
       /\ highest_peaks gray (4 :: [6]) = Ret after
       /\ highest_peaks gray ([0] ++ 2 :: 4 :: [6]) = Ret (before ++ after)
       /\ forall H y_bottom y_top,
            converted_y (map snd (before ++ after)) H y_bottom y_top
            = converted_y (map snd before) H y_bottom y_top
              ++ converted_y (map snd after) H y_bottom y_top.
Proof.
  intros gray.
  apply (dark_region_is_omitted gray [0] [6] 2 4); reflexivity.
Defined.

(** ** Calibration Mapper in binary64: exact cases of the rounded operations *)

Lemma f64_of_int_1 : f64_of_int 1 = f64_one.
Proof. reflexivity. Qed.

Lemma f64_of_int_0 : f64_of_int 0 = S754_zero false.
Proof. reflexivity. Qed.

Lemma round_canonical s m e :
  bounded 53 1024 m e = true ->
  binary_round_aux 53 1024 s (Zpos m) e loc_Exact = S754_finite s m e.
Proof.
  unfold bounded, canonical_mantissa; intros B.
  apply andb_true_iff in B as (C & E); apply Z.eqb_eq in C.
  unfold binary_round_aux, shr_fexp.
  cbn [Zdigits2 shr_record_of_loc].
  rewrite C, Z.sub_diag; cbn [shr shr_m loc_of_shr_record round_nearest_even Zdigits2 shr_record_of_loc].
  rewrite C, Z.sub_diag; cbn [shr shr_m].
  now rewrite E.
Qed.

Lemma digits_shift m :
  Zpos (digits2_pos (4503599627370496 * m)) = Zpos (digits2_pos m) + 52.
Proof. cbn [Pos.mul digits2_pos]. lia. Qed.

Lemma f64_mul_one s m e :
  bounded 53 1024 m e = true ->
  f64_mul f64_one (S754_finite s m e) = S754_finite s m e.
Proof.
  intros B; pose proof B as B'.
  unfold bounded, canonical_mantissa in B.
  apply andb_true_iff in B as (C & E); apply Z.eqb_eq in C.
  unfold f64_mul, f64_one, SFmul; cbn [xorb].
  unfold binary_round_aux at 1, shr_fexp at 1.
  cbn [Zdigits2 shr_record_of_loc].
  rewrite digits_shift.
  replace (Z.pos (digits2_pos m) + 52 + (-52 + e)) with (Z.pos (digits2_pos m) + e) by lia.
  rewrite C.
  replace (e - (-52 + e)) with 52 by lia.
  cbn [shr iter_pos shr_1 Pos.mul orb shr_m loc_of_shr_record round_nearest_even].
  replace (-52 + e + 52) with e by lia.
  unfold shr_fexp; cbn [Zdigits2 shr_record_of_loc].
  rewrite C, Z.sub_diag; cbn [shr shr_m].
  now rewrite E.
Qed.

Lemma f64_mul_one_valid d : f64_valid d = true -> f64_mul f64_one d = d.
Proof.
  destruct d as [s|s| |s m e]; intros V; try reflexivity.
  apply f64_mul_one; exact V.
Qed.

Lemma f64_div_self s m e :
  f64_div (S754_finite s m e) (S754_finite s m e) = f64_one.
Proof.
  unfold f64_div, f64_one, SFdiv, SFdiv_core_binary.
  rewrite !Z.sub_diag.
  change (Z.min (fexp 53 1024 0) 0) with (-53).
  change (0 - -53) with 53.
  cbv iota.
  rewrite Z.shiftl_mul_pow2 by lia.
  destruct (Z.div_eucl (Z.pos m * 2 ^ 53) (Z.pos m)) as (q, r) eqn:D.
  assert (q = 2 ^ 53 /\ r = 0) as (-> & ->).
  { pose proof (Z.div_eucl_eq (Z.pos m * 2 ^ 53) (Z.pos m) ltac:(lia)) as Q.
    pose proof (Z.mod_pos_bound (Z.pos m * 2 ^ 53) (Z.pos m) ltac:(lia)) as R.
    unfold Z.modulo in R; rewrite D in *.
    assert (Z.pos m * (2 ^ 53 - q) = r) as K by lia.
    assert (2 ^ 53 - q = 0) by nia. lia. }
  assert (new_location (Z.pos m) 0 = loc_Exact) as ->
    by (unfold new_location; destruct (Z.even (Z.pos m)); reflexivity).
  destruct s; reflexivity.
Qed.

Lemma digits_size p : digits2_pos p = Pos.size p.
Proof. induction p; simpl; congruence. Qed.

Lemma digits_iter p k :
  digits2_pos (Pos.iter xO p k) = (digits2_pos p + k)%positive.
Proof.
  induction k using Pos.peano_ind.
  - simpl; lia.
  - rewrite Pos.iter_succ; cbn [digits2_pos]; rewrite IHk; lia.
Qed.

Lemma f64_of_int_finite H :
  0 < H < 2 ^ 53 ->
  exists m e, f64_of_int H = S754_finite false m e /\ bounded 53 1024 m e = true.
Proof.
  intros HH; destruct H as [|p|p]; try lia.
  assert (Z.pos (digits2_pos p) <= 53) as Hd.
  { rewrite digits_size.
    pose proof (Pos.size_le p) as L.
    assert (Z.pos (2 ^ Pos.size p) <= Z.pos p~0) as L' by exact L.
    rewrite Pos2Z.inj_pow in L'.
    destruct (Z.le_gt_cases (Z.pos (Pos.size p)) 53) as [|G]; [assumption|].
    assert (2 ^ 54 <= 2 ^ Z.pos (Pos.size p)) by (apply Z.pow_le_mono_r; lia).
    rewrite Pos2Z.inj_xO in L'; lia. }
  unfold f64_of_int, binary_normalize, binary_round.
  assert (fexp 53 1024 (Z.pos (digits2_pos p) + 0) = Z.pos (digits2_pos p) - 53) as ->
    by (unfold fexp, emin; lia).
  unfold shl_align.
  destruct (Z.pos (digits2_pos p) - 53 - 0) as [|k|k] eqn:K; try lia.
  - assert (bounded 53 1024 p 0 = true) as B.
    { unfold bounded, canonical_mantissa, fexp, emin.
      apply andb_true_iff; split; [apply Z.eqb_eq|apply Z.leb_le]; lia. }
    eexists _, _; split; [apply round_canonical; exact B|exact B].
  - assert (bounded 53 1024 (Pos.iter xO p k) (Z.pos (digits2_pos p) - 53) = true) as B.
    { unfold bounded, canonical_mantissa, fexp, emin.
      rewrite digits_iter.
      apply andb_true_iff; split; [apply Z.eqb_eq|apply Z.leb_le]; lia. }
    eexists _, _; split; [apply round_canonical; exact B|exact B].
Qed.

Lemma f64_eqb_refl x : f64_is_finite x = true -> f64_eqb x x = true.
Proof.
  destruct x as [s| | |s m e]; try discriminate; intros _.
  - reflexivity.
  - unfold f64_eqb, SFeqb, SFcompare.
    rewrite Z.compare_refl, Pos.compare_cont_refl.
    destruct s; reflexivity.
Qed.

Lemma f64_eqb_zero s s' : f64_eqb (S754_zero s) (S754_zero s') = true.
Proof. reflexivity. Qed.

Lemma calibrate_f64_bottom H yb yt :
  0 < H < 2 ^ 53 ->
  f64_is_finite yb = true ->
  f64_is_finite (f64_sub yt yb) = true ->
  f64_eqb (calibrate_f64 H yb yt H) yb = true.
Proof.
  intros HH Fb Fd.
  destruct (f64_of_int_finite H HH) as (m & e & E & _).
  unfold calibrate_f64; rewrite E, f64_div_self, f64_of_int_1.
  change (f64_sub f64_one f64_one) with (S754_zero false).
  assert (exists s, f64_mul (S754_zero false) (f64_sub yt yb) = S754_zero s)
    as (s & ->).
  { destruct (f64_sub yt yb) as [sd| | |sd md ed]; try discriminate;
      eexists; reflexivity. }
  destruct yb as [sb| | |sb mb eb]; try discriminate.
  - destruct s, sb; reflexivity.
  - cbn [f64_add SFadd]; apply f64_eqb_refl; reflexivity.
Qed.

Lemma calibrate_f64_top H yb yt :
  0 < H < 2 ^ 53 ->
  calibrate_f64 H yb yt 0 = f64_add (f64_mul f64_one (f64_sub yt yb)) yb.
Proof.
  intros HH.
  destruct (f64_of_int_finite H HH) as (m & e & E & _).
  unfold calibrate_f64; rewrite E, f64_of_int_0, f64_of_int_1.
  reflexivity.
Qed.

Lemma calibrate_f64_top_zero H s yt :
  0 < H < 2 ^ 53 ->
  f64_is_finite yt = true -> f64_valid yt = true ->
  f64_eqb (calibrate_f64 H (S754_zero s) yt 0) yt = true.
Proof.
  intros HH F V.
  rewrite calibrate_f64_top by assumption.
  destruct yt as [st| | |st mt et]; try discriminate.
  - destruct s, st; reflexivity.
  - assert (f64_sub (S754_finite st mt et) (S754_zero s) = S754_finite st mt et) as ->
      by reflexivity.
    rewrite f64_mul_one by exact V.
    cbn [f64_add SFadd]. apply f64_eqb_refl; reflexivity.
Qed.

(** ** Calibration Mapper in binary64: the claim *)

(** C3, as the specification states it, fails: row 0 does not always map to
    [y_top].  With [y_bottom = -0.1], [y_top = 0.2] (the binary64 values
    nearest to -1/10 and 2/10) and any height, line 110 gives
    0.20000000000000004 for row 0, which is not [y_top]; the unrounded
    formula gives [y_top] there, so the value of the code is not the value
    of the formula either. *)
Lemma calibration_row_zero_is_rounded :
  f64_div (f64_of_int (-1)) (f64_of_int 10) = minus_one_tenth
  /\ f64_div (f64_of_int 1) (f64_of_int 5) = two_tenths
  /\ calibrate_f64 1000 minus_one_tenth two_tenths 0
     = S754_finite false 7205759403792795 (-55)
  /\ f64_eqb (calibrate_f64 1000 minus_one_tenth two_tenths 0) two_tenths
     = false
  /\ (calibrate 1000 (f64_to_Q minus_one_tenth) (f64_to_Q two_tenths) 0
      == f64_to_Q two_tenths)%Q
  /\ ~ (f64_to_Q (calibrate_f64 1000 minus_one_tenth two_tenths 0)
        == calibrate 1000 (f64_to_Q minus_one_tenth) (f64_to_Q two_tenths) 0)%Q.
Proof.
  split; [|split; [|split; [|split; [|split]]]];
    try (vm_compute; reflexivity).
  intros E; vm_compute in E; discriminate E.
Qed.

(** C3. For every image height H with 0 < H < 2^53 and binary64 scale
    endpoints, the Calibration Mapper gives one value per landmark row, and
    the value of row r is (1 - r/H) * (y_top - y_bottom) + y_bottom with
    each of the five operations rounded to binary64.  Row H maps to
    [y_bottom] whenever [y_bottom] and the rounded [y_top - y_bottom] are
    finite.  Row 0 maps to 1.0 * (y_top - y_bottom) + y_bottom, rounded,
    that is to (y_top - y_bottom) + y_bottom with the subtraction and the
    addition rounded; this is [y_top] when [y_bottom] is zero and [y_top]
    is finite.  With
    y_bottom = 0, y_top = 100 and H = 1000 the rows 0, 500 and 1000 map to
    100.0, 50.0 and 0.0. *)
Theorem calibration_mapper_binary64 (H : Z) (y_bottom y_top : f64)
    (raw_y_coords : list Z) :
  0 < H < 2 ^ 53 ->
  (length (converted_y_f64 raw_y_coords H y_bottom y_top) = length raw_y_coords
   /\ forall i r,
        nth_error raw_y_coords i = Some r ->
        nth_error (converted_y_f64 raw_y_coords H y_bottom y_top) i
        = Some (f64_add
                  (f64_mul
                     (f64_sub f64_one (f64_div (f64_of_int r) (f64_of_int H)))
                     (f64_sub y_top y_bottom))
                  y_bottom))
  /\ (f64_is_finite y_bottom = true ->
      f64_is_finite (f64_sub y_top y_bottom) = true ->
      f64_eqb (calibrate_f64 H y_bottom y_top H) y_bottom = true)
  /\ calibrate_f64 H y_bottom y_top 0
     = f64_add (f64_mul f64_one (f64_sub y_top y_bottom)) y_bottom
  /\ (f64_valid (f64_sub y_top y_bottom) = true ->
      calibrate_f64 H y_bottom y_top 0
      = f64_add (f64_sub y_top y_bottom) y_bottom)
  /\ (forall s,
        y_bottom = S754_zero s ->
        f64_is_finite y_top = true -> f64_valid y_top = true ->
        f64_eqb (calibrate_f64 H y_bottom y_top 0) y_top = true)
  /\ converted_y_f64 [0; 500; 1000] 1000 (f64_of_int 0) (f64_of_int 100)
     = [f64_of_int 100; f64_of_int 50; f64_of_int 0].
Proof.
  intros HH; split; [split|split; [|split; [|split; [|split]]]].
  - apply length_map.
  - intros i r E; unfold converted_y_f64.
    rewrite nth_error_map, E; reflexivity.
  - apply calibrate_f64_bottom; assumption.
  - apply calibrate_f64_top; assumption.
  - intros V; rewrite calibrate_f64_top, f64_mul_one_valid by assumption.
    reflexivity.
  - intros s ->; apply calibrate_f64_top_zero; assumption.
  - vm_compute; reflexivity.
Qed.

Lemma calibration_mapper_binary64_witness :
  let y_bottom := f64_of_int 0 in
  let y_top := f64_of_int 100 in
  f64_eqb (calibrate_f64 1000 y_bottom y_top 1000) y_bottom = true
  /\ f64_eqb (calibrate_f64 1000 y_bottom y_top 0) y_top = true
  /\ nth_error (converted_y_f64 [0; 500; 1000] 1000 y_bottom y_top) 1
     = Some (f64_of_int 50).
Proof.
  intros y_bottom y_top.
  destruct (calibration_mapper_binary64 1000 y_bottom y_top [0; 500; 1000])
    as ((_ & F) & B & _ & _ & T & _); [lia|].
  split; [apply B; reflexivity|].
  split; [apply (T false); reflexivity|].
  rewrite (F 1%nat 500 eq_refl); vm_compute; reflexivity.
Defined.

(** ** Calibration Mapper: the claims *)

Open Scope Q_scope.

Lemma inject_Z_pos (H : Z) : (0 < H)%Z -> 0 < inject_Z H.
Proof. intros HH; unfold Qlt; simpl; lia. Qed.



Close Scope Q_scope.

(** ** The image loop never raises, and every image adds its own artefacts *)








(** ** The image loop: the claims *)



(** ** The image loop with the crop in front: an empty crop *)

Lemma cv2_imwrite_empty h w :
  h = 0 \/ w = 0 -> cv2_imwrite (h, w) = Raise Cv2Error.
Proof.
  intros [-> | ->]; unfold cv2_imwrite; cbn [fst snd].
  - reflexivity.
  - now rewrite Z.eqb_refl, orb_true_r.
Qed.

Lemma cv2_imwrite_written h w :
  h <> 0 -> w <> 0 -> cv2_imwrite (h, w) = Ret tt.
Proof.
  intros Hh Hw; unfold cv2_imwrite; cbn [fst snd].
  destruct (Z.eqb_spec h 0); [contradiction|].
  destruct (Z.eqb_spec w 0); [contradiction|reflexivity].
Qed.

(** With a crop that has a pixel, or a file that was not loaded, line 49
    changes nothing of what the body returns. *)
Lemma process_file_with_crop find_peaks f w :
  image (job_of f) = None \/ (crop_height f <> 0 /\ crop_width f <> 0) ->
  process_file find_peaks f w = process_image find_peaks (job_of f) w.
Proof.
  unfold process_file; intros [E | (Hh & Hw)].
  - now rewrite E.
  - destruct (image (job_of f)); [|reflexivity].
    now rewrite cv2_imwrite_written.
Qed.

(** An exception in the body of one file is the result of the script. *)
Lemma script_raises find_peaks before f after w w' e :
  for_each before (process_file find_peaks) w = Ret w' ->
  process_file find_peaks f w' = Raise e ->
  script find_peaks (before ++ f :: after) w = Raise e.
Proof.
  intros B F; unfold script.
  rewrite for_each_app, B, bind_ret; cbn [for_each].
  now rewrite F.
Qed.

(** C7. The code has no InputError for an intensity matrix of zero width or
    zero height, and such a matrix never reaches the Profile Builder: the
    grey array has twice the height and width of the operator's crop, so it
    is empty only when the crop is, and then [cv2.imwrite] at line 49
    raises [cv2.error], which nothing catches.  The exception is the
    result of the body for that file and of the whole script, whatever
    files come after it: they are not processed, where the specification
    has them unaffected. *)
Theorem empty_crop_ends_the_run (find_peaks : list npfloat -> list Z)
    (f : image_file) (gray : ndarray2) :
  image (job_of f) = Some gray ->
  gray_of_crop f gray ->
  shape0 gray = 0 \/ shape1 gray = 0 ->
  (forall w, process_file find_peaks f w = Raise Cv2Error)
  /\ (forall before after w w',
        for_each before (process_file find_peaks) w = Ret w' ->
        script find_peaks (before ++ f :: after) w = Raise Cv2Error)
  /\ (forall before after w, exists e,
        script find_peaks (before ++ f :: after) w = Raise e).
Proof.
  intros E (G0 & G1) Z.
  assert (forall w, process_file find_peaks f w = Raise Cv2Error) as F.
  { intros w; unfold process_file; rewrite E.
    rewrite cv2_imwrite_empty by lia; reflexivity. }
  split; [exact F|split].
  - intros before after w w' B.
    apply script_raises with (w' := w'); [exact B|apply F].
  - intros before after w.
    destruct (for_each before (process_file find_peaks) w) as [w'|e] eqn:B.
    + exists Cv2Error; apply script_raises with (w' := w'); [exact B|apply F].
    + exists e; unfold script; rewrite for_each_app, B; reflexivity.
Qed.

Lemma empty_crop_ends_the_run_witness :
  let find_peaks := fun profile : list npfloat => [1; 3] in
  let lit := {| shape1 := 4; rows := [[0; 9; 0; 9]; [0; 9; 0; 9]] |} in
  let first := {| crop_height := 1; crop_width := 2;
                  job_of := {| base_name := "a"; image := Some lit;
                               y_bottom := 0; y_top := 100 |} |} in
  let empty := {| shape1 := 0; rows := [] |} in
  let second := {| crop_height := 0; crop_width := 0;
                   job_of := {| base_name := "b"; image := Some empty;
                                y_bottom := 0; y_top := 100 |} |} in
  let third := {| crop_height := 1; crop_width := 2;
                  job_of := {| base_name := "c"; image := Some lit;
                               y_bottom := 0; y_top := 100 |} |} in
  let w := {| stdout := []; saved := [] |} in
  (exists w', script find_peaks [first; third] w = Ret w')
  /\ script find_peaks [first; second; third] w = Raise Cv2Error.
Proof.
  intros find_peaks lit first empty second third w.
  split; [eexists; vm_compute; reflexivity|].
  destruct (empty_crop_ends_the_run find_peaks second empty) as (_ & S & _);
    [reflexivity | split; reflexivity | left; reflexivity |].
  eapply (S [first] [third] w); vm_compute; reflexivity.
Defined.




(** * Further properties of the code *)

(** ** Region Segmenter: fewer than two peaks, and peaks in their regions *)

Lemma region_boundaries_few peaks W :
  len peaks < 2 -> region_boundaries peaks W = Raise IndexError.
Proof.
  intros Hn; unfold region_boundaries.
  destruct peaks as [|p0 [|p1 t]]; [reflexivity|reflexivity|].
  rewrite !len_cons in Hn; pose proof (len_nonneg t); lia.
Qed.

Lemma region_boundaries_many peaks W :
  2 <= len peaks ->
  exists b, region_boundaries peaks W = Ret b /\ len b = len peaks + 1.
Proof.
  intros Hn; unfold region_boundaries.
  rewrite !getitem_nonneg by lia; rewrite !bind_ret.
  assert (forall (k : nat) rb, Z.of_nat k <= len peaks - 1 ->
    exists b,
      for_each (range (Z.of_nat k))
        (fun i region_boundaries =>
           pi <- peaks.[i] ;;
           pj <- peaks.[i + 1] ;;
           Ret (region_boundaries ++ [floordiv64 (add64 pi pj) 2])) rb
      = Ret b /\ len b = len rb + Z.of_nat k) as Loop.
  { induction k as [|k IH]; intros rb Hk.
    - exists rb; split; [reflexivity|simpl; lia].
    - replace (Z.of_nat (S k)) with (Z.of_nat k + 1) by lia.
      destruct (IH rb ltac:(lia)) as (b & Hb & Hl).
      rewrite range_succ, for_each_app, Hb by lia; simpl.
      rewrite !getitem_nonneg by lia; simpl.
      eexists; split; [reflexivity|rewrite len_app, Hl, len_cons].
      change (len (@nil Z)) with 0; lia. }
  destruct (Loop (Z.to_nat (len peaks - 1))
              [Z.max 0 (sub64 (at_index peaks 0)
                          (floordiv64 (sub64 (at_index peaks 1)
                                         (at_index peaks 0)) 2))]
              ltac:(lia)) as (b & Hb & Hl).
  rewrite Z2Nat.id in Hb, Hl by lia.
  cbv zeta; rewrite Hb, bind_ret, !getitem_negative by lia; simpl.
  eexists; split; [reflexivity|].
  rewrite len_app, Hl, !len_cons; change (len (@nil Z)) with 0; lia.
Qed.

(** X1. The Region Segmenter (lines 76-83) raises [IndexError] exactly when
    it is given fewer than two peaks, whatever the width and the peak values;
    with two peaks or more it returns one boundary more than there are
    peaks.  The guard of line 71 is what keeps the exception away. *)
Theorem region_boundaries_needs_two_peaks (peaks : list Z) (W : Z) :
  (len peaks < 2 <-> region_boundaries peaks W = Raise IndexError)
  /\ (2 <= len peaks <->
      exists b, region_boundaries peaks W = Ret b /\ len b = len peaks + 1).
Proof.
  split; split.
  - apply region_boundaries_few.
  - intros E; destruct (Z.lt_ge_cases (len peaks) 2) as [H|H]; [exact H|].
    destruct (region_boundaries_many peaks W H) as (b & Hb & _); congruence.
  - apply region_boundaries_many.
  - intros (b & Hb & _).
    destruct (Z.lt_ge_cases (len peaks) 2) as [H|H]; [|exact H].
    rewrite (region_boundaries_few peaks W H) in Hb; discriminate.
Qed.

(** X2. For a strictly increasing peak sequence of length n >= 2 inside
    [0, W) (W <= 2^62), the region of a peak starts at or before the peak,
    and it holds the peak exactly when the deciding gap -- to the next peak,
    for the last peak to the previous one -- is at least 2 columns: with a
    gap of 1 the floor of the midpoint falls on the peak itself, which is
    then the first column of the next region (or of no region). *)
Theorem peak_in_own_region (peaks : list Z) (W : Z) :
  2 <= len peaks ->
  strictly_increasing peaks = true ->
  peaks_in W peaks = true ->
  W <= 2 ^ 62 ->
  exists b,
    region_boundaries peaks W = Ret b
    /\ forall i, 0 <= i < len peaks ->
         at_index b i <= at_index peaks i
         /\ (in_region (at_index peaks i) (at_index b i, at_index b (i + 1))
             = true
             <-> 2 <= deciding_gap peaks i).
Proof.
  intros Hn Hs Hp HW.
  exists (spec_boundaries peaks W).
  split; [now apply region_boundaries_spec|].
  intros i Hi.
  rewrite !at_spec_boundaries by lia.
  unfold in_region, deciding_gap, spec_left_bound, spec_right_bound,
    spec_midpoint; cbn [fst snd].
  pose proof (peak_bounds peaks W Hp i Hi) as Bi.
  destruct (Z.eqb_spec (i + 1) 0); [lia|].
  destruct (Z.eqb_spec i (len peaks)); [lia|].
  assert (i = 0 \/ 0 < i) as [E0|Hpos] by lia.
  - subst i.
    pose proof (peak_step peaks Hs 0 ltac:(lia) ltac:(lia)) as S0.
    change (0 + 1) with 1 in *.
    destruct (Z.eqb_spec 0 0); [|lia].
    destruct (Z.eqb_spec 1 (len peaks)); [lia|].
    destruct (Z.ltb_spec 1 (len peaks)); [|lia].
    change (1 - 1) with 0; change (0 + 1) with 1.
    split; [Z.div_mod_to_equations; lia|].
    rewrite andb_true_iff, Z.leb_le, Z.ltb_lt.
    split; [intros (_ & H1)|intros H1; split];
      Z.div_mod_to_equations; lia.
  - destruct (Z.eqb_spec i 0); [lia|].
    pose proof (peak_step peaks Hs (i - 1) ltac:(lia) ltac:(lia)) as Sp.
    replace (i - 1 + 1) with i in Sp by lia.
    pose proof (peak_bounds peaks W Hp (i - 1) ltac:(lia)) as Bp.
    replace (i - 1 + 1) with i by lia.
    replace (i + 1 - 1) with i by lia.
    split; [Z.div_mod_to_equations; lia|].
    rewrite andb_true_iff, Z.leb_le, Z.ltb_lt.
    destruct (Z.eqb_spec (i + 1) (len peaks)) as [El|Nl].
    + destruct (Z.ltb_spec (i + 1) (len peaks)); [lia|].
      replace (len peaks - 1) with i by lia.
      replace (len peaks - 2) with (i - 1) by lia.
      split; [intros (_ & H1)|intros H1; split];
        Z.div_mod_to_equations; lia.
    + destruct (Z.ltb_spec (i + 1) (len peaks)); [|lia].
      pose proof (peak_step peaks Hs i ltac:(lia) ltac:(lia)) as Sn.
      split; [intros (_ & H1)|intros H1; split];
        Z.div_mod_to_equations; lia.
Qed.

Lemma peak_in_own_region_witness :
  exists b,
    region_boundaries [100; 101; 400] 1000 = Ret b
    /\ forall i, 0 <= i < len [100; 101; 400] ->
         at_index b i <= at_index [100; 101; 400] i
         /\ (in_region (at_index [100; 101; 400] i)
               (at_index b i, at_index b (i + 1)) = true
             <-> 2 <= deciding_gap [100; 101; 400] i).
Proof.
  apply (peak_in_own_region [100; 101; 400] 1000);
    [vm_compute; congruence | reflexivity | reflexivity
    | vm_compute; congruence].
Defined.

(** ** Landmark Locator: the list of landmarks *)

Lemma found_in_rows gray region c r :
  In (c, r) (found_in gray region) -> 0 <= r < shape0 gray.
Proof.
  unfold found_in.
  destruct (landmark_locator_scan gray (fst region) (snd region))
    as ((min_y, min_x_local) & Inv & ->); cbn [fst snd].
  unfold scanned in Inv; rewrite shape0_slice_columns in Inv.
  destruct (Z.geb_spec min_x_local 0); simpl; [|intros []].
  destruct (Z.ltb_spec min_y (shape0 gray)); simpl; [|intros []].
  intros [E|[]]; injection E as _ <-.
  destruct Inv as [(Hx & _)|(_ & Hy & _)]; lia.
Qed.

Lemma found_in_at_most_one gray region :
  (length (found_in gray region) <= 1)%nat.
Proof.
  unfold found_in.
  destruct (landmark_locator gray (fst region) (snd region)) as [[pt|]|e];
    simpl; lia.
Qed.

Lemma landmarks_at_most_regions gray regions :
  (length (flat_map (found_in gray) regions) <= length regions)%nat.
Proof.
  induction regions as [|region l IH]; [simpl; lia|].
  cbn [flat_map]; rewrite length_app; cbn [length].
  pose proof (found_in_at_most_one gray region); lia.
Qed.

Lemma region_is_dark_complete gray x0 x1 :
  (forall r c, pixel_of_region gray x0 x1 r c -> ~ bright gray r c) ->
  region_is_dark gray x0 x1 = true.
Proof.
  intros Hdark; unfold region_is_dark.
  apply forallb_forall; intros r Hr; apply in_range in Hr.
  apply forallb_forall; intros k Hk; apply in_range in Hk.
  apply Z.leb_le.
  specialize (Hdark r (x0 + k)); unfold pixel_of_region, bright in Hdark.
  destruct (Z.le_gt_cases (pixel gray r (x0 + k)) intensity_threshold)
    as [Hle|Hgt]; [exact Hle|].
  exfalso; apply Hdark; [lia|lia].
Qed.

Lemma found_in_cases gray x0 x1 :
  well_shaped gray = true ->
  region_of_image gray x0 x1 = true ->
  (region_is_dark gray x0 x1 = true /\ found_in gray (x0, x1) = [])
  \/ (region_is_dark gray x0 x1 = false
      /\ exists c r, found_in gray (x0, x1) = [(c, r)]
                     /\ topmost_leftmost gray x0 x1 c r).
Proof.
  intros Wf R.
  destruct (landmark_locator_spec gray x0 x1 Wf R) as (found & E & Hspec).
  unfold found_in; cbn [fst snd]; rewrite E.
  destruct found as [(c, r)|].
  - right; split; [|now exists c, r].
    destruct (region_is_dark gray x0 x1) eqn:D; [|reflexivity].
    destruct Hspec as (P & B & _).
    now apply (region_is_dark_spec gray x0 x1 D) in P.
  - left; split; [now apply region_is_dark_complete|reflexivity].
Qed.

Lemma boundaries_make_regions gray a t :
  non_decreasing (a :: t) = true ->
  boundaries_within (shape1 gray) (a :: t) = true ->
  Forall (fun region =>
            region_of_image gray (fst region) (snd region) = true)
    (regions_of (a :: t)).
Proof.
  revert a; induction t as [|b t IH]; intros a Hnd Hin; [constructor|].
  rewrite regions_of_cons.
  simpl in Hnd; apply andb_true_iff in Hnd as (Hab & Hnd).
  unfold boundaries_within in Hin; cbn [forallb] in Hin.
  apply andb_true_iff in Hin as (Ha & Hin).
  constructor; [|apply IH; [exact Hnd|exact Hin]].
  cbn [forallb] in Hin; apply andb_true_iff in Hin as (Hb & _).
  unfold region_of_image; cbn [fst snd].
  apply andb_true_iff in Ha as (Ha0 & _); apply andb_true_iff in Hb as (_ & HbW).
  now rewrite Ha0, Hab, HbW.
Qed.

Lemma strictly_increasing_cons x l :
  (forall y, In y l -> x < y) ->
  strictly_increasing l = true ->
  strictly_increasing (x :: l) = true.
Proof.
  intros Hlt Hs; destruct l as [|y l]; [reflexivity|].
  change (((x <? y) && strictly_increasing (y :: l)) = true).
  rewrite Hs, andb_true_r; apply Z.ltb_lt, Hlt; now left.
Qed.

Lemma landmark_columns_ordered gray a t :
  well_shaped gray = true ->
  non_decreasing (a :: t) = true ->
  boundaries_within (shape1 gray) (a :: t) = true ->
  let columns := map fst (flat_map (found_in gray) (regions_of (a :: t))) in
  strictly_increasing columns = true
  /\ forall c, In c columns -> a <= c < last (a :: t) a.
Proof.
  intros Wf; revert a; induction t as [|b t IH]; intros a Hnd Hin columns.
  - split; [reflexivity|intros c []].
  - pose proof (boundaries_make_regions gray a (b :: t) Hnd Hin) as Hreg.
    pose proof (non_decreasing_last a (b :: t) Hnd) as Hlast.
    pose proof Hnd as Hnd'.
    simpl in Hnd; apply andb_true_iff in Hnd as (Hab & Hnd).
    apply Z.leb_le in Hab.
    pose proof (non_decreasing_last b t Hnd) as Hlastb.
    unfold boundaries_within in Hin; cbn [forallb] in Hin.
    apply andb_true_iff in Hin as (_ & Hin).
    destruct (IH b Hnd Hin) as (Hsorted & Hrange).
    change (last (a :: b :: t) a) with (last (b :: t) a) in *.
    rewrite (last_indep (b :: t) a b) in * by congruence.
    subst columns; rewrite regions_of_cons in *; cbn [flat_map].
    rewrite map_app.
    inversion Hreg as [|? ? Rab _]; subst; cbn [fst snd] in Rab.
    destruct (found_in_cases gray a b Wf Rab)
      as [(_ & ->)|(_ & c & r & -> & (_ & Hc) & _)]; cbn [map app fst].
    + split; [exact Hsorted|].
      intros c Hc; specialize (Hrange c Hc); lia.
    + split.
      * apply strictly_increasing_cons; [|exact Hsorted].
        intros y Hy; specialize (Hrange y Hy); lia.
      * intros c' [<-|Hc']; [lia|].
        specialize (Hrange c' Hc'); lia.
Qed.

(** X3. The loop over the regions (lines 86-104) never raises, whatever the
    array and the boundary list (unsorted, out of the image or too short):
    [np.min] is only reached behind the test for a non-empty index array and
    the indices into the boundary list stay in range.  It yields at most one
    landmark per region, each with a row of the image. *)
Theorem highest_peaks_never_raises (gray : ndarray2)
    (region_boundaries : list Z) :
  exists landmarks,
    highest_peaks gray region_boundaries = Ret landmarks
    /\ (length landmarks <= length (regions_of region_boundaries))%nat
    /\ forall c r, In (c, r) landmarks -> 0 <= r < shape0 gray.
Proof.
  rewrite highest_peaks_regions; eexists; split; [reflexivity|].
  split.
  - apply landmarks_at_most_regions.
  - intros c r Hin; apply in_flat_map in Hin as (region & _ & Hin).
    now apply found_in_rows in Hin.
Qed.

(** X4. For boundaries that are non-decreasing columns of the image (as the
    Region Segmenter returns them), the landmarks come out in strictly
    increasing column order, all between the first and the last boundary:
    the heartbeats of the table follow the time axis. *)
Theorem landmarks_strictly_left_to_right (gray : ndarray2)
    (region_boundaries : list Z) :
  well_shaped gray = true ->
  non_decreasing region_boundaries = true ->
  boundaries_within (shape1 gray) region_boundaries = true ->
  exists landmarks,
    highest_peaks gray region_boundaries = Ret landmarks
    /\ strictly_increasing (map fst landmarks) = true
    /\ forall c r, In (c, r) landmarks ->
         hd 0 region_boundaries <= c < last region_boundaries 0.
Proof.
  intros Wf Hnd Hin.
  rewrite highest_peaks_regions; eexists; split; [reflexivity|].
  destruct region_boundaries as [|a t]; [split; [reflexivity|intros c r []]|].
  destruct (landmark_columns_ordered gray a t Wf Hnd Hin) as (Hs & Hr).
  split; [exact Hs|].
  intros c r Hc; cbn [hd].
  rewrite (last_indep (a :: t) 0 a) by congruence.
  apply Hr, in_map_iff; exists (c, r); split; [reflexivity|exact Hc].
Qed.

Lemma landmarks_strictly_left_to_right_witness :
  let gray := {| shape1 := 6;
                 rows := [[0; 0; 0; 0; 0; 0];
                          [0; 7; 0; 0; 9; 0];
                          [3; 7; 0; 0; 9; 1]] |} in
  exists landmarks,
    highest_peaks gray [0; 2; 4; 6] = Ret landmarks
    /\ strictly_increasing (map fst landmarks) = true
    /\ forall c r, In (c, r) landmarks ->
         hd 0 [0; 2; 4; 6] <= c < last [0; 2; 4; 6] 0.
Proof.
  intros gray.
  apply (landmarks_strictly_left_to_right gray [0; 2; 4; 6]); reflexivity.
Defined.

Lemma landmarks_of_lit_regions gray region_boundaries :
  well_shaped gray = true ->
  non_decreasing region_boundaries = true ->
  boundaries_within (shape1 gray) region_boundaries = true ->
  Forall2
    (fun pt region =>
       topmost_leftmost gray (fst region) (snd region) (fst pt) (snd pt))
    (flat_map (found_in gray) (regions_of region_boundaries))
    (lit_regions gray region_boundaries).
Proof.
  intros Wf Hnd Hin; unfold lit_regions.
  destruct region_boundaries as [|a t]; [constructor|].
  pose proof (boundaries_make_regions gray a t Hnd Hin) as Hreg.
  induction Hreg as [|(x0, x1) l R _ IH]; [constructor|].
  cbn [flat_map filter fst snd] in *.
  destruct (found_in_cases gray x0 x1 Wf R)
    as [(-> & ->)|(-> & c & r & -> & T)]; cbn [negb app].
  - exact IH.
  - constructor; [exact T|exact IH].
Qed.

(** X5. For such boundaries the landmarks are, one for one and in order, the
    topmost (then leftmost) bright pixels of the regions that hold a bright
    pixel: a region contributes a landmark exactly when it is not dark, so
    that heartbeat number k belongs to the k-th lit region, not to region
    number k. *)
Theorem landmarks_match_lit_regions (gray : ndarray2)
    (region_boundaries : list Z) :
  well_shaped gray = true ->
  non_decreasing region_boundaries = true ->
  boundaries_within (shape1 gray) region_boundaries = true ->
  exists landmarks,
    highest_peaks gray region_boundaries = Ret landmarks
    /\ Forall2
         (fun pt region =>
            topmost_leftmost gray (fst region) (snd region) (fst pt) (snd pt))
         landmarks (lit_regions gray region_boundaries).
Proof.
  intros Wf Hnd Hin.
  rewrite highest_peaks_regions; eexists; split; [reflexivity|].
  now apply landmarks_of_lit_regions.
Qed.

Lemma landmarks_match_lit_regions_witness :
  let gray := {| shape1 := 6;
                 rows := [[0; 0; 0; 0; 0; 0];
                          [0; 7; 0; 0; 9; 0];
                          [3; 7; 0; 0; 9; 1]] |} in
  exists landmarks,
    highest_peaks gray [0; 2; 4; 6] = Ret landmarks
    /\ Forall2
         (fun pt region =>
            topmost_leftmost gray (fst region) (snd region) (fst pt) (snd pt))
         landmarks (lit_regions gray [0; 2; 4; 6]).
Proof.
  intros gray.
  apply (landmarks_match_lit_regions gray [0; 2; 4; 6]); reflexivity.
Defined.

(** ** Thresholding (line 56) and what it means for the later stages *)

Lemma shape0_zero_below thr gray : shape0 (zero_below thr gray) = shape0 gray.
Proof. unfold shape0, zero_below; simpl; apply len_map. Qed.

Lemma well_shaped_zero_below thr gray :
  well_shaped gray = true -> well_shaped (zero_below thr gray) = true.
Proof.
  unfold well_shaped; rewrite shape0_zero_below; simpl shape1; simpl rows.
  intros Wf; apply andb_true_iff in Wf as (Wf & Hrows).
  rewrite Wf; simpl.
  rewrite forallb_forall in *; intros row Hrow.
  apply in_map_iff in Hrow as (row0 & <- & Hin).
  rewrite len_map; now apply Hrows.
Qed.

Lemma nth_map_default {A B : Type} (f : A -> B) l n d d' :
  f d = d' -> nth n (map f l) d' = f (nth n l d).
Proof. intros <-; apply map_nth. Qed.

Lemma pixel_zero_below thr gray r c :
  0 < thr ->
  pixel (zero_below thr gray) r c
  = if pixel gray r c <? thr then 0 else pixel gray r c.
Proof.
  intros Ht; unfold pixel, zero_below; simpl rows.
  assert ((if 0 <? thr then 0 else 0) = 0) as Hzero
    by (destruct (0 <? thr); reflexivity).
  destruct ((0 <=? r) && (0 <=? c)); [|now rewrite Hzero].
  rewrite (nth_map_default (map (fun v : Z => if v <? thr then 0 else v))
             (rows gray) (Z.to_nat r) [] []) by reflexivity.
  now rewrite (nth_map_default (fun v : Z => if v <? thr then 0 else v)
                 _ (Z.to_nat c) 0 0) by exact Hzero.
Qed.

Lemma bright_zero_below thr gray r c :
  0 < thr ->
  (bright (zero_below thr gray) r c <-> thr <= pixel gray r c).
Proof.
  intros Ht; unfold bright, intensity_threshold.
  rewrite pixel_zero_below by exact Ht.
  destruct (Z.ltb_spec (pixel gray r c) thr); lia.
Qed.

(** X6. Thresholding and locating compose: in the image as the loop body
    prepares it (line 56), the landmark of a region is the pixel of the
    region that comes first by row, then by column, among those whose grey
    value before thresholding is at least BRIGHTNESS_THRESHOLD = 5.  Grey
    values 1 to 4 never make a landmark although they exceed the intensity
    threshold 0 of line 87. *)
Theorem landmark_of_thresholded_image (gray : ndarray2) (x0 x1 : Z) :
  well_shaped gray = true ->
  region_of_image gray x0 x1 = true ->
  forall c r,
    landmark_locator (zero_below BRIGHTNESS_THRESHOLD gray) x0 x1
    = Ret (Some (c, r))
    <-> (pixel_of_region gray x0 x1 r c
         /\ BRIGHTNESS_THRESHOLD <= pixel gray r c
         /\ forall r' c',
              pixel_of_region gray x0 x1 r' c' ->
              BRIGHTNESS_THRESHOLD <= pixel gray r' c' ->
              r < r' \/ (r = r' /\ c <= c')).
Proof.
  intros Wf R c r.
  set (t := zero_below BRIGHTNESS_THRESHOLD gray).
  assert (0 < BRIGHTNESS_THRESHOLD) as Ht by reflexivity.
  assert (forall c r,
            topmost_leftmost t x0 x1 c r
            <-> (pixel_of_region gray x0 x1 r c
                 /\ BRIGHTNESS_THRESHOLD <= pixel gray r c
                 /\ forall r' c',
                      pixel_of_region gray x0 x1 r' c' ->
                      BRIGHTNESS_THRESHOLD <= pixel gray r' c' ->
                      r < r' \/ (r = r' /\ c <= c'))) as Hiff.
  { intros c0 r0; unfold topmost_leftmost, pixel_of_region, t.
    rewrite shape0_zero_below, bright_zero_below by exact Ht.
    split; intros (P & B & M); (split; [exact P|split; [exact B|]]);
      intros r' c' P' B'; apply M; try exact P';
      now apply (bright_zero_below BRIGHTNESS_THRESHOLD gray r' c' Ht). }
  rewrite <- Hiff.
  destruct (landmark_locator_spec t x0 x1
              (well_shaped_zero_below BRIGHTNESS_THRESHOLD gray Wf) R)
    as (found & E & Hspec).
  rewrite E; split.
  - intros Eq; injection Eq as ->; exact Hspec.
  - intros T; destruct found as [(c', r')|].
    + destruct (topmost_leftmost_unique _ _ _ _ _ _ _ Hspec T) as (-> & ->).
      reflexivity.
    + destruct T as (P & B & _); now apply (Hspec r c) in P.
Qed.

Lemma landmark_of_thresholded_image_witness :
  let gray := {| shape1 := 4;
                 rows := [[0; 4; 0; 0];
                          [0; 3; 5; 0];
                          [9; 9; 9; 9]] |} in
  landmark_locator (zero_below BRIGHTNESS_THRESHOLD gray) 0 4
  = Ret (Some (2, 1))
  <-> (pixel_of_region gray 0 4 1 2
       /\ BRIGHTNESS_THRESHOLD <= pixel gray 1 2
       /\ forall r' c',
            pixel_of_region gray 0 4 r' c' ->
            BRIGHTNESS_THRESHOLD <= pixel gray r' c' ->
            1 < r' \/ (1 = r' /\ 2 <= c')).
Proof.
  intros gray.
  apply (landmark_of_thresholded_image gray 0 4); reflexivity.
Defined.

(** ** Profile Builder: one bounded mean per column *)

Lemma np_sum_bounds l : forall a,
  Forall (fun v => 0 <= v <= 255) l ->
  a <= fold_left Z.add l a <= a + 255 * len l.
Proof.
  induction l as [|v l IH]; intros a Hall; cbn [fold_left].
  - change (len (@nil Z)) with 0; lia.
  - inversion Hall as [|? ? Hv Hl]; subst.
    specialize (IH (a + v) Hl); rewrite len_cons; lia.
Qed.

Lemma is_uint8_zero_below thr gray :
  0 <= thr -> is_uint8 gray = true -> is_uint8 (zero_below thr gray) = true.
Proof.
  unfold is_uint8, zero_below; simpl rows; intros Ht Hu.
  rewrite forallb_forall in *; intros row Hrow.
  apply in_map_iff in Hrow as (row0 & <- & Hin).
  specialize (Hu row0 Hin); rewrite forallb_forall in *.
  intros v Hv; apply in_map_iff in Hv as (v0 & <- & Hin0).
  specialize (Hu v0 Hin0).
  destruct (Z.ltb_spec v0 thr); [reflexivity|exact Hu].
Qed.

Lemma column_uint8 a c :
  well_shaped a = true ->
  is_uint8 a = true ->
  0 <= c < shape1 a ->
  Forall (fun v => 0 <= v <= 255) (column a c).
Proof.
  unfold well_shaped, is_uint8, column; intros Wf Hu Hc.
  apply andb_true_iff in Wf as (_ & Hrows).
  rewrite forallb_forall in Hrows, Hu.
  apply Forall_forall; intros v Hv.
  apply in_map_iff in Hv as (row & <- & Hin).
  specialize (Hrows row Hin); apply Z.eqb_eq in Hrows.
  specialize (Hu row Hin); rewrite forallb_forall in Hu.
  assert (In (nth (Z.to_nat c) row 0) row) as Hnth
    by (apply nth_In; unfold len in Hrows; lia).
  specialize (Hu _ Hnth); lia.
Qed.

(** X7. For an image with at least one row and grey values 0..255, the
    profile that the loop body builds (thresholding, then the column means
    of line 60) has exactly one entry per column, and every entry is a
    number -- never NaN -- between 0 and 255. *)
Theorem signal_profile_bounded (gray : ndarray2) :
  well_shaped gray = true ->
  is_uint8 gray = true ->
  0 < shape0 gray ->
  let profile := signal_profile (zero_below BRIGHTNESS_THRESHOLD gray) in
  len profile = shape1 gray
  /\ Forall (fun x => exists q, x = Finite q /\ (0 <= q <= 255)%Q) profile.
Proof.
  intros Wf Hu HH profile.
  set (t := zero_below BRIGHTNESS_THRESHOLD gray) in *.
  assert (well_shaped t = true) as Wt by now apply well_shaped_zero_below.
  assert (is_uint8 t = true) as Ut
    by (apply is_uint8_zero_below; [unfold BRIGHTNESS_THRESHOLD; lia|exact Hu]).
  assert (0 <= shape1 gray) as HW.
  { unfold well_shaped in Wf.
    apply andb_true_iff in Wf as (Wf & _).
    apply andb_true_iff in Wf as (Wf & _).
    apply andb_true_iff in Wf as (Wf & _); now apply Z.leb_le. }
  subst profile; unfold signal_profile; split.
  - rewrite len_map; apply len_range; exact HW.
  - apply Forall_forall; intros x Hx.
    apply in_map_iff in Hx as (c & <- & Hc); apply in_range in Hc.
    pose proof (column_uint8 t c Wt Ut Hc) as Hcol.
    pose proof (len_column t c) as Hlen.
    unfold t at 2 in Hlen; rewrite shape0_zero_below in Hlen.
    pose proof (np_sum_bounds (column t c) 0 Hcol) as Hsum.
    unfold np_mean; fold (np_sum (column t c)) in Hsum.
    destruct (column t c) as [|v col] eqn:E;
      [change (len (@nil Z)) with 0 in Hlen; lia|].
    eexists; split; [reflexivity|].
    assert (0 < inject_Z (len (v :: col)))%Q as Hpos
      by (apply inject_Z_pos; lia).
    split.
    + apply Qle_shift_div_l; [exact Hpos|].
      rewrite Qmult_0_l, <- (Zle_Qle 0); lia.
    + apply Qle_shift_div_r; [exact Hpos|].
      rewrite <- (inject_Z_mult 255), <- Zle_Qle; lia.
Qed.

Lemma signal_profile_bounded_witness :
  let gray := {| shape1 := 3; rows := [[0; 4; 255]; [7; 3; 255]] |} in
  let profile := signal_profile (zero_below BRIGHTNESS_THRESHOLD gray) in
  len profile = shape1 gray
  /\ Forall (fun x => exists q, x = Finite q /\ (0 <= q <= 255)%Q) profile.
Proof.
  intros gray.
  apply (signal_profile_bounded gray); reflexivity.
Defined.

(** ** Unreadable files *)



(** ** From valid peaks to the saved landmarks *)

Lemma non_decreasing_within a t W :
  non_decreasing (a :: t) = true ->
  0 <= a ->
  last (a :: t) a <= W ->
  boundaries_within W (a :: t) = true.
Proof.
  revert a; induction t as [|b t IH]; intros a Hnd Ha Hl.
  - simpl in *. apply andb_true_iff; split; [|reflexivity].
    apply andb_true_iff; split; [apply Z.leb_le|apply Z.leb_le]; lia.
  - pose proof (non_decreasing_last a (b :: t) Hnd) as Hal.
    simpl in Hnd; apply andb_true_iff in Hnd as (Hab & Hnd).
    apply Z.leb_le in Hab.
    change (last (a :: b :: t) a) with (last (b :: t) a) in *.
    rewrite (last_indep (b :: t) a b) in * by congruence.
    change (boundaries_within W (a :: b :: t))
      with ((0 <=? a) && (a <=? W) && boundaries_within W (b :: t)).
    rewrite (IH b Hnd ltac:(lia) Hl), andb_true_r.
    apply andb_true_iff; split; apply Z.leb_le; lia.
Qed.

Lemma spec_boundaries_within peaks W :
  2 <= len peaks ->
  strictly_increasing peaks = true ->
  peaks_in W peaks = true ->
  boundaries_within W (spec_boundaries peaks W) = true.
Proof.
  intros Hn Hs Hp.
  pose proof (spec_boundaries_non_decreasing peaks W Hn Hs Hp) as ND.
  pose proof (spec_bounds_inside peaks W Hn Hs Hp) as ((B0 & _) & B2).
  unfold spec_boundaries in *.
  change ([spec_left_bound peaks] ++ ?l) with (spec_left_bound peaks :: l)
    in *.
  apply non_decreasing_within; [exact ND|exact B0|].
  remember (map (spec_midpoint peaks) (range (len peaks - 1))) as mids.
  change (last (spec_left_bound peaks :: mids ++ [spec_right_bound peaks W])
            (spec_left_bound peaks) <= W).
  rewrite app_comm_cons, last_last; exact B2.
Qed.

(** X15. The stages compose: for a readable image of width at most 2^62 in
    which the Peak Detector returns at least two strictly increasing columns
    of the profile, the loop body saves exactly one entry, under the image's
    name; its boundaries are those of the Region Segmenter for these peaks,
    and its landmarks are, in strictly increasing column order, the topmost
    (then leftmost) bright pixels of the regions of the thresholded image
    that hold a bright pixel. *)
Theorem valid_peaks_give_ordered_landmarks
    (find_peaks : list npfloat -> list Z) (j : job) (gray : ndarray2) :
  image j = Some gray ->
  well_shaped gray = true ->
  shape1 gray <= 2 ^ 62 ->
  let t := zero_below BRIGHTNESS_THRESHOLD gray in
  let peaks := find_peaks (signal_profile t) in
  2 <= len peaks ->
  strictly_increasing peaks = true ->
  peaks_in (shape1 gray) peaks = true ->
  exists a,
    artefacts_of find_peaks j = [(base_name j, a)]
    /\ boundaries a = spec_boundaries peaks (shape1 gray)
    /\ strictly_increasing (map fst (landmarks a)) = true
    /\ Forall2
         (fun pt region =>
            topmost_leftmost t (fst region) (snd region) (fst pt) (snd pt))
         (landmarks a) (lit_regions t (boundaries a)).
Proof.
  intros Hi Wf HW t peaks Hn Hs Hp.
  assert (well_shaped t = true) as Wt by now apply well_shaped_zero_below.
  pose proof (region_boundaries_spec peaks (shape1 gray) Hn Hp HW) as Hb.
  pose proof (spec_boundaries_non_decreasing peaks (shape1 gray) Hn Hs Hp)
    as ND.
  pose proof (spec_boundaries_within peaks (shape1 gray) Hn Hs Hp) as Hin.
  unfold artefacts_of, process_image; rewrite Hi; fold t; fold peaks.
  destruct (Z.ltb_spec (len peaks) 2) as [Hlt|_]; [lia|].
  change (shape1 t) with (shape1 gray).
  rewrite Hb, bind_ret, highest_peaks_regions, bind_ret.
  eexists; split; [reflexivity|]; cbn [boundaries landmarks].
  split; [reflexivity|].
  split.
  - remember (spec_boundaries peaks (shape1 gray)) as b.
    destruct b as [|x b]; [reflexivity|].
    now apply (landmark_columns_ordered t x b Wt ND).
  - now apply landmarks_of_lit_regions.
Qed.

Lemma valid_peaks_give_ordered_landmarks_witness :
  let find_peaks := fun profile : list npfloat => [1; 4] in
  let gray := {| shape1 := 6;
                 rows := [[0; 0; 0; 0; 0; 0];
                          [0; 7; 0; 0; 9; 0];
                          [3; 7; 0; 0; 9; 1]] |} in
  let j := {| base_name := "a"; image := Some gray;
              y_bottom := 0; y_top := 100 |} in
  let t := zero_below BRIGHTNESS_THRESHOLD gray in
  let peaks := find_peaks (signal_profile t) in
  exists a,
    artefacts_of find_peaks j = [(base_name j, a)]
    /\ boundaries a = spec_boundaries peaks (shape1 gray)
    /\ strictly_increasing (map fst (landmarks a)) = true
    /\ Forall2
         (fun pt region =>
            topmost_leftmost t (fst region) (snd region) (fst pt) (snd pt))
         (landmarks a) (lit_regions t (boundaries a)).
Proof.
  intros find_peaks gray j.
  apply (valid_peaks_give_ordered_landmarks find_peaks j gray);
    [reflexivity | reflexivity | vm_compute; congruence
    | vm_compute; congruence | reflexivity | reflexivity].
Defined.
